(** * Tennis loaders: normalisation, coercion, deduplication and apply

    A shallow embedding of the two ingestion scripts of the repository,
    [load_sackmann.py] and [load_tml.py], together with a small model of
    the parts of pandas and of the SQL engine that they drive.

    - A [DataFrame] is an ordered list of column names and a list of rows,
      each row being a list of cells in column order; a cell is a value or
      missing ([None], standing for NaN / NA / NaT).
    - The storage engine is a finite map from relation names to tables; a
      table is a list of rows (finite maps from column names to values, an
      absent column being NULL) and, optionally, the columns of its unique
      index.  Statements are data ([stmt]) with an executable meaning
      ([exec]); a transaction ([begin]) commits when every statement
      succeeds and restores the tables otherwise.
    - The text parsers of pandas are an interface ([Pandas]); the loaders
      are written against it, and a small instance is given to evaluate
      them. *)

From stdpp Require Import gmap strings list fin_maps sorting.
From Stdlib Require Import ZArith Ascii.
From Stdlib Require String.

(** ** Values and cells *)

(** A parsed number: either a whole number, or some other float (a fraction
    or an infinity), kept by its text. *)
Inductive number :=
  | Whole (z : Z)
  | Fractional (text : string).

(** A datetime64 value is the integer it stores (time since the epoch). *)
Definition Timestamp := Z.

Inductive value :=
  | VStr (s : string)
  | VInt (z : Z)
  | VFloat (x : number)
  | VDate (t : Timestamp).

Arguments Whole z%_Z.
Arguments VInt z%_Z.
Arguments VDate t%_Z.

#[global] Instance number_eq_dec : EqDecision number.
Proof. solve_decision. Defined.

#[global] Instance value_eq_dec : EqDecision value.
Proof. unfold Timestamp. solve_decision. Defined.

Abbreviation cell := (option value).
Abbreviation row := (gmap string value).

(** ** Exceptions *)

Inductive exn :=
  | ValueError
  | KeyError
  | TypeError
  | FileNotFoundError
  | EmptyDataError
  | ParserError
  | DBAPIError.

Inductive result (A : Type) :=
  | Ok (a : A)
  | Raise (e : exn).
Arguments Ok {A} a.
Arguments Raise {A} e.

#[global] Instance result_ret : MRet result := λ A a, Ok a.
#[global] Instance result_bind : MBind result := λ A B f m,
  match m with Ok a => f a | Raise e => Raise e end.

Definition raises {A} (r : result A) : bool :=
  match r with Ok _ => false | Raise _ => true end.

(** ** Data frames *)

Record DataFrame := mkDF { columns : list string; data : list (list cell) }.

(** [len(df)] *)
Definition len (df : DataFrame) : nat := length (data df).

(** [df.empty]: some axis has length zero. *)
Definition empty (df : DataFrame) : bool :=
  match columns df, data df with
  | [], _ => true
  | _, [] => true
  | _, _ => false
  end.

(** Position of the first column called [c]. *)
Definition col_index (cols : list string) (c : string) : option nat :=
  fst <$> list_find (λ x, x = c) cols.

(** [c in df.columns] *)
Definition has_col (df : DataFrame) (c : string) : bool :=
  bool_decide (c ∈ columns df).

(** The cell of a row at a position; a row shorter than the header is
    padded with missing cells. *)
Definition cell_at (r : list cell) (i : nat) : cell := mjoin (r !! i).

(** [df[c]]; raises KeyError when there is no such column. *)
Definition getitem (df : DataFrame) (c : string) : result (list cell) :=
  match col_index (columns df) c with
  | Some i => Ok (map (λ r, cell_at r i) (data df))
  | None => Raise KeyError
  end.

(** [series.notna()] *)
Definition notna (s : list cell) : list bool := map (λ v : cell, bool_decide (is_Some v)) s.

(** [df[mask]]: the rows whose mask entry is true. *)
Fixpoint boolean_index {A} (rows : list A) (mask : list bool) : list A :=
  match rows, mask with
  | r :: rows', b :: mask' =>
      if b then r :: boolean_index rows' mask' else boolean_index rows' mask'
  | _, _ => []
  end.

(** [int(mask.sum())] *)
Definition mask_sum (mask : list bool) : nat := length (filter (λ b, b = true) mask).

(** Element-wise [&] of two masks. *)
Definition mask_and (m1 m2 : list bool) : list bool := zip_with andb m1 m2.

(** The record a row denotes under a column list: column [c] holds the
    cell at the first position of [c]; a missing cell leaves the column
    NULL. *)
Fixpoint row_of (cols : list string) (r : list cell) : row :=
  match cols, r with
  | c :: cols', v :: r' =>
      match v with
      | Some x => <[c := x]> (row_of cols' r')
      | None => delete c (row_of cols' r')
      end
  | _, _ => ∅
  end.

Definition records (cols : list string) (rs : list (list cell)) : list row :=
  map (row_of cols) rs.

(** ** Frame operations *)

Definition width (df : DataFrame) : nat := length (columns df).

(** A row brought to a width, missing cells filling the gap. *)
Definition pad (n : nat) (r : list cell) : list cell := resize n None r.

(** [df[c] = series]: an existing column is replaced in place, a new one
    is appended. *)
Definition setitem (df : DataFrame) (c : string) (s : list cell) : DataFrame :=
  match col_index (columns df) c with
  | Some i =>
      mkDF (columns df) (imap (λ j r, <[i := cell_at s j]> (pad (width df) r)) (data df))
  | None =>
      mkDF (columns df ++ [c]) (imap (λ j r, pad (width df) r ++ [cell_at s j]) (data df))
  end.

(** [df[c] = pd.NA] *)
Definition setitem_na (df : DataFrame) (c : string) : DataFrame :=
  setitem df c (replicate (len df) None).

(** [df.reindex(columns=cols)]: the columns of [cols] in that order, a
    column the frame lacks being all missing. *)
Definition reindex (df : DataFrame) (cols : list string) : DataFrame :=
  mkDF cols
    (map (λ r, map (λ c, from_option (cell_at r) None (col_index (columns df) c)) cols)
       (data df)).

(** [df.rename(columns=f)] *)
Definition rename (f : string → string) (df : DataFrame) : DataFrame :=
  mkDF (map f (columns df)) (data df).

(** [pd.DataFrame({c1: s1, ...})] for series of length [n]. *)
Definition from_columns (n : nat) (cols : list (string * list cell)) : DataFrame :=
  mkDF (map fst cols) (map (λ j, map (λ cs, cell_at cs.2 j) cols) (seq 0 n)).

(** [df[mask]] *)
Definition mask_rows (df : DataFrame) (mask : list bool) : DataFrame :=
  mkDF (columns df) (boolean_index (data df) mask).

(** The positions of the columns [subset]; KeyError when one is absent. *)
Fixpoint col_indices (cols subset : list string) : result (list nat) :=
  match subset with
  | [] => Ok []
  | c :: subset' =>
      match col_index cols c with
      | Some i => js ← col_indices cols subset'; mret (i :: js)
      | None => Raise KeyError
      end
  end.

(** The cells of a row at some positions. *)
Definition row_key (idxs : list nat) (r : list cell) : list cell :=
  map (cell_at r) idxs.

(** [df.dropna(subset=subset)] *)
Definition dropna (df : DataFrame) (subset : list string) : result DataFrame :=
  idxs ← col_indices (columns df) subset;
  mret (mkDF (columns df)
          (List.filter (λ r, forallb (λ v : cell, bool_decide (is_Some v)) (row_key idxs r))
             (data df))).

(** The order of sort keys: values of one kind by their order, missing
    cells last, then position by position. *)
Definition value_ltb (x y : value) : bool :=
  match x, y with
  | VInt a, VInt b => Z.ltb a b
  | VDate a, VDate b => Z.ltb a b
  | VStr a, VStr b => String.ltb a b
  | _, _ => false
  end.

Definition cell_ltb (x y : cell) : bool :=
  match x, y with
  | Some a, Some b => value_ltb a b
  | Some _, None => true
  | _, _ => false
  end.

Fixpoint key_ltb (k1 k2 : list cell) : bool :=
  match k1, k2 with
  | x :: k1', y :: k2' => cell_ltb x y || (bool_decide (x = y) && key_ltb k1' k2')
  | _, _ => false
  end.

(** A stable sort: each row, taken from the last to the first, goes in
    front of the first row that is not smaller. *)
Fixpoint insert_by {A} (key : A → list cell) (x : A) (l : list A) : list A :=
  match l with
  | [] => [x]
  | y :: l' => if key_ltb (key y) (key x) then y :: insert_by key x l' else x :: l
  end.

Definition stable_sort {A} (key : A → list cell) (l : list A) : list A :=
  foldr (insert_by key) [] l.

(** [df.sort_values(by)] on several columns. *)
Definition sort_values (df : DataFrame) (by_ : list string) : result DataFrame :=
  idxs ← col_indices (columns df) by_;
  mret (mkDF (columns df) (stable_sort (row_key idxs) (data df))).

(** [keep="last"]: a row stays when no later row has its key. *)
Fixpoint keep_last {A} (key : A → list cell) (l : list A) : list A :=
  match l with
  | [] => []
  | x :: l' =>
      if bool_decide (key x ∈ map key l') then keep_last key l'
      else x :: keep_last key l'
  end.

(** [keep="first"]: a row stays when no earlier row has its key. *)
Fixpoint keep_first {A} (key : A → list cell) (seen : list (list cell)) (l : list A)
    : list A :=
  match l with
  | [] => []
  | x :: l' =>
      if bool_decide (key x ∈ seen) then keep_first key seen l'
      else x :: keep_first key (key x :: seen) l'
  end.

Inductive keep := KeepFirst | KeepLast.

(** [df.drop_duplicates(subset=subset, keep=k)] *)
Definition drop_duplicates (df : DataFrame) (subset : list string) (k : keep)
    : result DataFrame :=
  idxs ← col_indices (columns df) subset;
  mret (mkDF (columns df)
          match k with
          | KeepLast => keep_last (row_key idxs) (data df)
          | KeepFirst => keep_first (row_key idxs) [] (data df)
          end).

(** ** Reading CSV files *)

(** A file is its lines, each line its fields. *)
Definition Csv := list (list string).

(** The texts [read_csv] takes for a missing value. *)
Definition NA_VALUES : list string :=
  [""; "#N/A"; "#N/A N/A"; "#NA"; "-1.#IND"; "-1.#QNAN"; "-NaN"; "-nan";
   "1.#IND"; "1.#QNAN"; "<NA>"; "N/A"; "NA"; "NULL"; "NaN"; "None";
   "n/a"; "nan"; "null"].

Definition read_cell (s : string) : cell :=
  if bool_decide (s ∈ NA_VALUES) then None else Some (VStr s).

(** The data lines under a header of [n] names: short lines are padded; a
    line with more fields than the header is rejected. *)
Definition read_rows (n : nat) (ls : list (list string)) : result (list (list cell)) :=
  if forallb (λ l : list string, length l <=? n) ls
  then Ok (map (λ l, pad n (map read_cell l)) ls)
  else Raise ParserError.

(** [pd.read_csv(p, dtype=str)]: the first line names the columns.  The
    names are kept as written: pandas renames a repeated name [x] to
    [x.1], [x.2], ... and a blank one to [Unnamed: i], and no loader looks
    such a name up. *)
Definition read_csv (f : Csv) : result DataFrame :=
  match f with
  | [] => Raise EmptyDataError
  | h :: ls => d ← read_rows (length h) ls; mret (mkDF h d)
  end.

(** [pd.read_csv(p, header=None, names=names, dtype=str)] *)
Definition read_csv_names (names : list string) (f : Csv) : result DataFrame :=
  d ← read_rows (length names) f; mret (mkDF names d).

(** [pd.read_csv(p, nrows=1).columns] *)
Definition peek_columns (f : Csv) : result (list string) :=
  match f with
  | [] => Raise EmptyDataError
  | h :: _ => Ok h
  end.

(** ** Text *)

(** Column names are compared as ASCII text. *)
Definition is_upper (a : ascii) : bool :=
  let n := nat_of_ascii a in (65 <=? n) && (n <=? 90).

Definition is_alnum_lower (a : ascii) : bool :=
  let n := nat_of_ascii a in
  ((97 <=? n) && (n <=? 122)) || ((48 <=? n) && (n <=? 57)).

Definition lower_ascii (a : ascii) : ascii :=
  if is_upper a then ascii_of_nat (nat_of_ascii a + 32) else a.

Fixpoint drop_while {A} (f : A → bool) (l : list A) : list A :=
  match l with
  | [] => []
  | x :: l' => if f x then drop_while f l' else l
  end.

(** Both ends of a list freed from the elements that satisfy [f]. *)
Definition strip_with {A} (f : A → bool) (l : list A) : list A :=
  rev (drop_while f (rev (drop_while f l))).

(** [s.lower()] *)
Definition lower (s : string) : string :=
  String.string_of_list_ascii (map lower_ascii (String.list_ascii_of_string s)).

(** [s.strip()] *)
Definition strip (s : string) : string :=
  String.string_of_list_ascii (strip_with Ascii.is_space (String.list_ascii_of_string s)).

(** [re.sub(r"[^a-z0-9]+", "_", s)]: [in_run] tells that the previous
    character already belonged to the run being replaced. *)
Fixpoint collapse (in_run : bool) (l : list ascii) : list ascii :=
  match l with
  | [] => []
  | a :: l' =>
      if is_alnum_lower a then a :: collapse false l'
      else if in_run then collapse true l'
      else "_"%char :: collapse true l'
  end.

(** ** The pandas parsers *)

(** The parsers of text that the loaders call.  [parse_number] is
    [pd.to_numeric(..., errors="coerce")] on one text, [parse_compact_date]
    is [pd.to_datetime(..., format="%Y%m%d", errors="coerce")] on one text,
    and [parse_dates_flex] is [pd.to_datetime(series, errors="coerce")] on
    a whole series (the general parse may look at the other values of the
    series to settle on a format). *)
Class Pandas := {
  parse_number : string → option number;
  parse_compact_date : string → option Timestamp;
  parse_dates_flex : list cell → list (option Timestamp);
  parse_dates_flex_length : ∀ s, length (parse_dates_flex s) = length s
}.

Section coercions.
Context {pd : Pandas}.

(** [pd.to_numeric(series, errors="coerce")], cell by cell. *)
Definition to_numeric (v : cell) : option number :=
  match v with
  | Some (VStr s) => parse_number s
  | Some (VInt z) => Some (Whole z)
  | Some (VFloat x) => Some x
  | Some (VDate t) => Some (Whole t)
  | None => None
  end.

(** [pd.to_datetime(series, format="%Y%m%d", errors="coerce")], cell by
    cell. *)
Definition to_datetime_compact (v : cell) : option Timestamp :=
  match v with
  | Some (VStr s) => parse_compact_date s
  | Some (VDate t) => Some t
  | _ => None
  end.
End coercions.

(** [series.astype("Int64")] after [to_numeric]: a float that is not a
    whole number cannot be cast, and the cast raises for the series. *)
Fixpoint astype_Int64 (s : list (option number)) : result (list cell) :=
  match s with
  | [] => Ok []
  | None :: s' => r ← astype_Int64 s'; mret (None :: r)
  | Some (Whole z) :: s' => r ← astype_Int64 s'; mret (Some (VInt z) :: r)
  | Some (Fractional _) :: _ => Raise TypeError
  end.

(** The float column [pd.to_numeric] leaves when no cast follows. *)
Definition float_cell (x : option number) : cell := VFloat <$> x.

Definition date_cell (t : option Timestamp) : cell := VDate <$> t.

(** The text of a value, as [str(x)] gives it for text; other values do
    not occur in the text columns of a frame read with [dtype=str]. *)
Definition text_of (v : value) : string :=
  match v with
  | VStr s => s
  | _ => ""
  end.

(** [series.astype(str)]: a missing cell becomes the text "nan". *)
Definition astype_str (v : cell) : cell :=
  match v with
  | Some x => Some (VStr (text_of x))
  | None => Some (VStr "nan")
  end.

(** [series.astype("string")]: missing cells stay missing. *)
Definition astype_string (v : cell) : cell := (λ x, VStr (text_of x)) <$> v.

(** [series.str.strip()] *)
Definition str_strip (v : cell) : cell :=
  match v with
  | Some (VStr s) => Some (VStr (strip s))
  | _ => None
  end.

(** [series.str.len() > 0] *)
Definition str_nonempty (v : cell) : bool :=
  match v with
  | Some (VStr s) => bool_decide (s ≠ "")
  | _ => false
  end.

(** ** Storage engine *)

(** A table: the columns of its unique index, if one is declared, and its
    rows. *)
Record Table := mkTable {
  unique_cols : option (list string);
  rows : list row
}.

(** The natural key of a row under key columns [kc]; [None] when some
    component is NULL.  As in a unique index, such a row conflicts with no
    row. *)
Definition key_of (kc : list string) (r : row) : option (list value) :=
  mapM (λ c, r !! c) kc.

Definition complete_keys (kc : list string) (rs : list row) : list (list value) :=
  omap (key_of kc) rs.

(** The unique index of a table is respected by a list of rows. *)
Definition unique_ok (u : option (list string)) (rs : list row) : bool :=
  match u with
  | None => true
  | Some kc => bool_decide (NoDup (complete_keys kc rs))
  end.

(** [COPY t (cols) FROM STDIN]: append; a unique violation fails the
    statement. *)
Definition copy_rows (rs : list row) (t : Table) : option Table :=
  let rs' := rows t ++ rs in
  if unique_ok (unique_cols t) rs'
  then Some (mkTable (unique_cols t) rs')
  else None.

(** [SET c = EXCLUDED.c] for every [c] of [upd]: the existing row [e] takes
    the proposed row's value (NULL included) in these columns. *)
Definition do_update (upd : list string) (e p : row) : row :=
  foldr (λ c m, partial_alter (λ _, p !! c) c m) e upd.

(** [e] and [p] conflict on the unique index over [kc]. *)
Definition conflict (kc : list string) (e p : row) : Prop :=
  is_Some (key_of kc p) ∧ key_of kc e = key_of kc p.

#[global] Instance conflict_dec kc e p : Decision (conflict kc e p).
Proof. unfold conflict. apply _. Defined.

(** One proposed row of [INSERT ... ON CONFLICT (kc) DO UPDATE SET upd]:
    the conflicting row is overwritten in place, otherwise the proposed
    row is inserted. *)
Fixpoint upsert_row (kc upd : list string) (p : row) (rs : list row) : list row :=
  match rs with
  | [] => [p]
  | e :: rs' =>
      if decide (conflict kc e p)
      then do_update upd e p :: rs'
      else e :: upsert_row kc upd p rs'
  end.

Definition upsert_rows (kc upd : list string) (src rs : list row) : list row :=
  foldl (λ acc p, upsert_row kc upd p acc) rs src.

(** [SELECT cols FROM ...]: the projection of a row on [cols]. *)
Definition project (cols : list string) (r : row) : row :=
  filter (λ kv, kv.1 ∈ cols) r.

(** [INSERT INTO t (cols) SELECT cols FROM src ON CONFLICT (kc) DO UPDATE
    SET upd].  The conflict target must be a unique index of [t]; a
    command that would touch the same row twice fails. *)
Definition insert_on_conflict (cols kc upd : list string) (src : list row)
    (t : Table) : option Table :=
  let proposed := map (project cols) src in
  if decide (unique_cols t = Some kc) then
    if bool_decide (NoDup (complete_keys kc proposed))
    then Some (mkTable (unique_cols t) (upsert_rows kc upd proposed (rows t)))
    else None
  else None.

(** The statements the loaders send. *)
Inductive stmt :=
  | SET_DATESTYLE
  | CREATE_TABLE_IF_NOT_EXISTS (name : string) (pk : list string)
  | CREATE_TEMP_LIKE (tmp src : string)
      (* CREATE TEMP TABLE tmp (LIKE src INCLUDING ALL) ON COMMIT DROP *)
  | CREATE_TEMP_AS (tmp src : string)
      (* CREATE TEMP TABLE tmp AS SELECT * FROM src WITH NO DATA *)
  | COPY (tbl : string) (cols : list string) (rs : list (list cell))
  | INSERT_ON_CONFLICT (tbl src : string) (cols kc upd : list string).

Abbreviation relations := (gmap string Table).

Definition exec (s : stmt) (ts : relations) : option relations :=
  match s with
  | SET_DATESTYLE => Some ts
  | CREATE_TABLE_IF_NOT_EXISTS name pk =>
      match ts !! name with
      | Some _ => Some ts
      | None => Some (<[name := mkTable (Some pk) []]> ts)
      end
  | CREATE_TEMP_LIKE tmp src =>
      match ts !! tmp, ts !! src with
      | None, Some t => Some (<[tmp := mkTable (unique_cols t) []]> ts)
      | _, _ => None
      end
  | CREATE_TEMP_AS tmp src =>
      match ts !! tmp, ts !! src with
      | None, Some _ => Some (<[tmp := mkTable None []]> ts)
      | _, _ => None
      end
  | COPY tbl cols rs =>
      t ← ts !! tbl;
      t' ← copy_rows (records cols rs) t;
      Some (<[tbl := t']> ts)
  | INSERT_ON_CONFLICT tbl src cols kc upd =>
      s ← ts !! src;
      t ← ts !! tbl;
      t' ← insert_on_conflict cols kc upd (rows s) t;
      Some (<[tbl := t']> ts)
  end.

(** Statements run in order until one fails; the second component is the
    list of statements that were sent. *)
Fixpoint run (body : list stmt) (ts : relations) : option relations * list stmt :=
  match body with
  | [] => (Some ts, [])
  | s :: body' =>
      match exec s ts with
      | Some ts' => let '(r, sent) := run body' ts' in (r, s :: sent)
      | None => (None, [s])
      end
  end.

(** At commit the relations created ON COMMIT DROP in the transaction
    disappear. *)
Definition dropped_at_commit (s : stmt) : option string :=
  match s with
  | CREATE_TEMP_LIKE tmp _ => Some tmp
  | _ => None
  end.

Definition commit (sent : list stmt) (ts : relations) : relations :=
  foldr delete ts (omap dropped_at_commit sent).

(** A line printed on standard output: its fixed text and its numbers. *)
Inductive line := Line (text : string) (nums : list nat).

(** What a loader can change: the relations, the statements sent so far,
    and the lines printed so far. *)
Record World := mkWorld {
  tables : relations;
  issued : list stmt;
  stdout : list line
}.

Definition print (l : line) (w : World) : World :=
  mkWorld (tables w) (issued w) (stdout w ++ [l]).

(** [with engine.begin() as conn: ...]: one transaction; an exception
    rolls every relation back and is raised again. *)
Definition begin (body : list stmt) (w : World) : result () * World :=
  match run body (tables w) with
  | (Some ts', sent) => (Ok (), mkWorld (commit sent ts') (issued w ++ sent) (stdout w))
  | (None, sent) => (Raise DBAPIError, mkWorld (tables w) (issued w ++ sent) (stdout w))
  end.

(** ** load_sackmann.py: bulk copy *)

(** [copy_df(df, full_table)]: nothing is sent for an empty frame;
    otherwise one transaction sets the date style and copies the rows
    under the frame's own column list. *)
Definition copy_df (df : DataFrame) (full_table : string) (w : World)
    : result () * World :=
  if empty df then (Ok (), w)
  else begin [SET_DATESTYLE; COPY full_table (columns df) (data df)] w.

(** ** load_sackmann.py: schema of the match files *)

Definition MATCH_COLS : list string :=
  ["tourney_id";"tourney_name";"surface";"draw_size";"tourney_level";"tourney_date";
   "match_num";"winner_id";"winner_name";"winner_hand";"winner_ht";"winner_ioc";
   "loser_id";"loser_name";"loser_hand";"loser_ht";"loser_ioc";"score";"best_of";
   "round";"minutes";"w_ace";"w_df";"w_svpt";"w_1stIn";"w_1stWon";"w_2ndWon";
   "w_SvGms";"w_bpSaved";"w_bpFaced";"l_ace";"l_df";"l_svpt";"l_1stIn";"l_1stWon";
   "l_2ndWon";"l_SvGms";"l_bpSaved";"l_bpFaced"].

Definition MATCH_INT_COLS : list string :=
  ["draw_size";"match_num";"winner_id";"winner_ht";"loser_id";"loser_ht";
   "best_of";"minutes";"w_ace";"w_df";"w_svpt";"w_1stIn";"w_1stWon";"w_2ndWon";
   "w_SvGms";"w_bpSaved";"w_bpFaced";"l_ace";"l_df";"l_svpt";"l_1stIn";
   "l_1stWon";"l_2ndWon";"l_SvGms";"l_bpSaved";"l_bpFaced"].

(** The names whose presence in the first line marks a header. *)
Definition PLAYER_SENTINELS : list string :=
  ["player_id"; "first_name"; "name_first"; "last_name"; "name_last"].

(** The positional layout of a players file without header. *)
Definition SRC_COLS : list string :=
  ["player_id";"first_name";"last_name";"hand";"birth_date";"country_code";"height"].

Definition RANKING_NAMES : list string :=
  ["ranking_date";"ranking";"player_id";"ranking_points"].

Definition RANKING_KEY : list string := ["ranking_date";"player_id"].

Definition RANKING_COLS : list string := ["ranking_date";"rank";"player_id";"points"].

(** The source columns chosen for the seven fields of a player. *)
Record picks := mkPicks {
  col_player_id : option string;
  col_first : option string;
  col_last : option string;
  col_hand : option string;
  col_birth : option string;
  col_country : option string;
  col_height : option string
}.

(** [has_header]: some sentinel is among the names of the first line. *)
Definition has_header (peek : list string) : bool :=
  existsb (λ c, bool_decide (c ∈ peek)) PLAYER_SENTINELS.

(** [pick]: the first candidate that is a column of the frame. *)
Definition pick (df : DataFrame) (cands : list string) : option string :=
  snd <$> list_find (λ c, c ∈ columns df) cands.

Definition pick_columns (df : DataFrame) : picks :=
  mkPicks (pick df ["player_id"])
          (pick df ["first_name"; "name_first"])
          (pick df ["last_name"; "name_last"])
          (pick df ["hand"])
          (pick df ["birth_date"; "dob"])
          (pick df ["country_code"; "ioc"])
          (pick df ["height_cm"; "height"]).

(** [truly_missing]: the labels of the required fields left unresolved. *)
Definition truly_missing (p : picks) : list string :=
  map fst
    (List.filter (λ eg : string * option string, bool_decide (eg.2 = None))
       [("player_id", col_player_id p); ("first/name", col_first p);
        ("last/name", col_last p); ("hand", col_hand p);
        ("birth_date", col_birth p); ("country_code/ioc", col_country p)]).

(** The column resolution of [load_players]; raises ValueError when a
    required field has no source column. *)
Definition resolve_players (df : DataFrame) : result picks :=
  let p := pick_columns df in
  if bool_decide (truly_missing p = []) then Ok p else Raise ValueError.

(** [df[col]] for a picked column. *)
Definition getitem_picked (df : DataFrame) (col : option string) : result (list cell) :=
  match col with
  | Some c => getitem df c
  | None => Raise KeyError
  end.

(** [pd.concat(frames, ignore_index=True)] for frames of one layout. *)
Definition concat_frames (cols : list string) (frames : list DataFrame) : DataFrame :=
  mkDF cols (concat (map data frames)).

Section sackmann.
Context {pd : Pandas}.

(** [to_numeric(series, errors="coerce").astype("Int64")] *)
Definition to_Int64 (s : list cell) : result (list cell) :=
  astype_Int64 (map to_numeric s).

(** [to_datetime(series, format="%Y%m%d", errors="coerce")] *)
Definition to_date (s : list cell) : list cell :=
  map (λ v, date_cell (to_datetime_compact v)) s.

(** *** load_players *)

(** The frame as read: with its header, or under the positional names;
    then the names stripped and lowered. *)
Definition read_players (f : Csv) : result DataFrame :=
  peek ← peek_columns f;
  df ← (if has_header peek then read_csv f else read_csv_names SRC_COLS f);
  mret (rename (λ c, lower (strip c)) df).

(** The output frame in schema order, the identifier cast to a nullable
    integer, and the rows without identifier removed. *)
Definition build_players (df : DataFrame) (p : picks) : result DataFrame :=
  pid ← getitem_picked df (col_player_id p);
  last ← getitem_picked df (col_last p);
  first ← getitem_picked df (col_first p);
  hand ← match col_hand p with
         | Some c => getitem df c
         | None => Ok (replicate (len df) None)
         end;
  birth ← getitem_picked df (col_birth p);
  country ← getitem_picked df (col_country p);
  height ← match col_height p with
           | Some c => s ← getitem df c; to_Int64 s
           | None => Ok (replicate (len df) None)
           end;
  let out := from_columns (len df)
    [("player_id", pid); ("name_last", last); ("name_first", first);
     ("hand", hand); ("dob", to_date birth); ("ioc", country);
     ("height_cm", height)] in
  s ← getitem out "player_id";
  pid' ← to_Int64 s;
  let out := setitem out "player_id" pid' in
  s ← getitem out "player_id";
  mret (mask_rows out (notna s)).

Definition players_frame (f : Csv) : result DataFrame :=
  df ← read_players f;
  p ← resolve_players df;
  build_players df p.

Definition load_players (file : option Csv) (w : World) : result () * World :=
  match file with
  | None => (Raise FileNotFoundError, w)
  | Some f =>
      match players_frame f with
      | Raise e => (Raise e, w)
      | Ok out =>
          copy_df out "atp.players"
            (print (Line "[players] rows (after cleaning)" [len out]) w)
      end
  end.

(** *** load_rankings *)

(** One rankings file: positional names, the date parsed, two columns
    renamed. *)
Definition read_rankings (f : Csv) : result DataFrame :=
  df ← read_csv_names RANKING_NAMES f;
  d ← getitem df "ranking_date";
  let df := setitem df "ranking_date" (to_date d) in
  mret (rename (λ c, if decide (c = "ranking") then "rank"
                     else if decide (c = "ranking_points") then "points"
                     else c) df).

(** The files that exist, read in order; a missing file is skipped with
    a warning. *)
Fixpoint read_all_rankings (files : list (option Csv)) (w : World)
    : result (list DataFrame) * World :=
  match files with
  | [] => (Ok [], w)
  | None :: files' =>
      read_all_rankings files' (print (Line "[rankings] WARNING: missing file, skipping" []) w)
  | Some f :: files' =>
      match read_rankings f with
      | Raise e => (Raise e, w)
      | Ok df =>
          match read_all_rankings files' w with
          | (Ok frames, w') => (Ok (df :: frames), w')
          | (Raise e, w') => (Raise e, w')
          end
      end
  end.

(** [out[out["ranking_date"] >= pd.to_datetime(min_date)]] *)
Definition since (min_date : option string) (out : DataFrame) : result DataFrame :=
  match min_date with
  | None | Some "" => Ok out
  | Some m =>
      match parse_dates_flex [Some (VStr m)] with
      | Some t :: _ =>
          d ← getitem out "ranking_date";
          mret (mask_rows out
                  (map (λ v : cell, match v with
                                    | Some (VDate x) => bool_decide (t ≤ x)%Z
                                    | _ => false
                                    end) d))
      | _ => Raise ValueError
      end
  end.

(** [out[c] = to_numeric(out[c], errors="coerce").astype("Int64")] *)
Definition coerce_col (df : DataFrame) (c : string) : result DataFrame :=
  s ← getitem df c;
  s' ← to_Int64 s;
  mret (setitem df c s').

(** The rankings up to the removal of rows without key. *)
Definition clean_rankings (min_date : option string) (out : DataFrame)
    : result DataFrame :=
  out ← since min_date out;
  out ← coerce_col out "player_id";
  out ← coerce_col out "rank";
  out ← coerce_col out "points";
  dropna out RANKING_KEY.

(** The deduplication: a stable sort on the key, then the last row of
    each key. *)
Definition dedupe_rankings (out : DataFrame) : result DataFrame :=
  out ← sort_values out RANKING_KEY;
  drop_duplicates out RANKING_KEY KeepLast.

Definition load_rankings (files : list (option Csv)) (min_date : option string)
    (w : World) : result () * World :=
  match read_all_rankings files w with
  | (Raise e, w) => (Raise e, w)
  | (Ok [], w) => (Ok (), print (Line "[rankings] No files found, nothing to load." []) w)
  | (Ok frames, w) =>
      match clean_rankings min_date (concat_frames RANKING_COLS frames) with
      | Raise e => (Raise e, w)
      | Ok out =>
          let before := len out in
          match dedupe_rankings out with
          | Raise e => (Raise e, w)
          | Ok out =>
              let after := len out in
              copy_df (reindex out RANKING_COLS) "atp.rankings"
                (print (Line "[rankings] rows, deduped" [after; before - after]) w)
          end
      end
  end.

(** *** load_matches *)

Fixpoint _coerce_numeric_cols (df : DataFrame) (cols : list string) : result DataFrame :=
  match cols with
  | [] => Ok df
  | c :: cols' =>
      df ← (if has_col df c then coerce_col df c else Ok (setitem_na df c));
      _coerce_numeric_cols df cols'
  end.

(** One match file up to the frame handed to the bulk copy. *)
Definition matches_frame (f : Csv) : result DataFrame :=
  df ← read_csv f;
  let df := foldl (λ df col, if has_col df col then df else setitem_na df col) df MATCH_COLS in
  d ← getitem df "tourney_date";
  let df := setitem df "tourney_date" (to_date d) in
  df ← _coerce_numeric_cols df MATCH_INT_COLS;
  mret (reindex df MATCH_COLS).

(** The loop over the years: the file of a year may be absent. *)
Fixpoint load_matches_from (files : list (option Csv)) (total : nat) (w : World)
    : result nat * World :=
  match files with
  | [] => (Ok total, w)
  | None :: files' =>
      load_matches_from files' total (print (Line "[matches] missing file, skipping" []) w)
  | Some f :: files' =>
      match matches_frame f with
      | Raise e => (Raise e, w)
      | Ok out =>
          let n := len out in
          let w := print (Line "[matches] rows" [n]) w in
          let '(r, w) := if decide (n = 0) then (Ok (), w) else copy_df out "atp.matches" w in
          match r with
          | Raise e => (Raise e, w)
          | Ok _ => load_matches_from files' (total + n) w
          end
      end
  end.

Definition load_matches (files : list (option Csv)) (w : World) : result () * World :=
  match load_matches_from files 0 w with
  | (Raise e, w) => (Raise e, w)
  | (Ok total, w) => (Ok (), print (Line "[matches] total rows loaded" [total]) w)
  end.
End sackmann.

(** ** load_tml.py: schema of the match table *)

Definition TML_COLS : list string :=
  ["tourney_id";"tourney_name";"surface";"draw_size";"tourney_level";"tourney_date";"match_num";
   "winner_id";"winner_seed";"winner_entry";"winner_name";"winner_hand";"winner_ht";"winner_ioc";
   "winner_age";"winner_rank";"winner_rank_points";
   "loser_id";"loser_seed";"loser_entry";"loser_name";"loser_hand";"loser_ht";"loser_ioc";
   "loser_age";"loser_rank";"loser_rank_points";
   "score";"best_of";"round";"minutes";
   "w_ace";"w_df";"w_svpt";"w_1stIn";"w_1stWon";"w_2ndWon";"w_SvGms";"w_bpSaved";"w_bpFaced";
   "l_ace";"l_df";"l_svpt";"l_1stIn";"l_1stWon";"l_2ndWon";"l_SvGms";"l_bpSaved";"l_bpFaced"].

Definition TARGET_COLS : list string := TML_COLS.

Definition INTS : list string :=
  ["draw_size";"match_num";
   "winner_seed";"winner_ht";"winner_rank";"winner_rank_points";
   "loser_seed";"loser_ht";"loser_rank";"loser_rank_points";
   "best_of";"minutes";"w_ace";"w_df";"w_svpt";"w_1stIn";"w_1stWon";"w_2ndWon";"w_SvGms";"w_bpSaved";"w_bpFaced";
   "l_ace";"l_df";"l_svpt";"l_1stIn";"l_1stWon";"l_2ndWon";"l_SvGms";"l_bpSaved";"l_bpFaced"].

Definition FLOATS : list string := ["winner_age";"loser_age"].

Definition STRS : list string :=
  ["tourney_id";"tourney_name";"surface";"tourney_level";"round";"score";
   "winner_id";"winner_entry";"winner_name";"winner_hand";"winner_ioc";
   "loser_id";"loser_entry";"loser_name";"loser_hand";"loser_ioc"].

(** The conflict target of the match upsert. *)
Definition MATCH_KEY : list string := ["tourney_id";"tourney_date";"match_num"].

(** ** load_tml.py: upsert_matches *)

(** [df["tourney_id"].notna() & df["tourney_date"].notna() & df["match_num"].notna()] *)
Definition key_mask (df : DataFrame) : result (list bool) :=
  a ← getitem df "tourney_id";
  b ← getitem df "tourney_date";
  c ← getitem df "match_num";
  mret (mask_and (mask_and (notna a) (notna b)) (notna c)).

(** The [SET] list: every target column outside the conflict target. *)
Definition updates : list string :=
  filter (λ c, c ∉ MATCH_KEY) TARGET_COLS.

(** The rows that pass the key mask: [df = df[key_mask].copy()]. *)
Definition staged (df : DataFrame) (mask : list bool) : DataFrame :=
  mask_rows df mask.

Definition upsert_matches (df : DataFrame) (w : World) : result () * World :=
  if empty df then (Ok (), w)
  else
    match key_mask df with
    | Raise e => (Raise e, w)
    | Ok mask =>
        let dropped := len df - mask_sum mask in
        let w :=
          if decide (dropped = 0) then w
          else print (Line "[tml] dropping rows with NULL match_num or missing tourney keys" [dropped]) w in
        let df := staged df mask in
        begin [ CREATE_TEMP_LIKE "tmp_tml" "atp.matches";
                COPY "tmp_tml" TARGET_COLS (data df);
                INSERT_ON_CONFLICT "atp.matches" "tmp_tml" TARGET_COLS MATCH_KEY updates ] w
    end.

(** ** load_tml.py: read_file *)

(** [canon]: stripped and lowered, every run of characters outside
    [a-z0-9] replaced by one underscore, and the underscores at both ends
    removed. *)
Definition canon (s : string) : string :=
  String.string_of_list_ascii
    (strip_with (λ a, bool_decide (a = "_"%char))
       (collapse false (String.list_ascii_of_string (lower (strip s))))).

(** [{canon(c): c for c in cols}]: a later column replaces an earlier one
    of the same canonical name. *)
Definition name_map (cols : list string) : gmap string string :=
  foldl (λ m c, <[canon c := c]> m) ∅ cols.

(** The keys of [expect], in the order of the dictionary. *)
Definition expect_keys : list string := map canon TML_COLS.

(** [[c for c in expect if c not in norm]] *)
Definition missing_keys (norm : gmap string string) : list string :=
  List.filter (λ k, bool_decide (norm !! k = None)) expect_keys.

(** [{norm[k]: expect[k] for k in expect if k in norm}] *)
Definition rename_map (norm expect : gmap string string) : gmap string string :=
  foldl (λ m k, match norm !! k, expect !! k with
                | Some src, Some tgt => <[src := tgt]> m
                | _, _ => m
                end) ∅ expect_keys.

(** The header stage of [read_file]: the canonical names of the expected
    columns must all be among those of the file, else ValueError; then
    the expected columns present under their exact name are kept. *)
Definition normalize (df : DataFrame) : result DataFrame :=
  let norm := name_map (columns df) in
  let expect := name_map TML_COLS in
  let missing := missing_keys norm in
  let '(df, missing) :=
    if bool_decide (missing = []) then (df, missing)
    else
      let rm := rename_map norm expect in
      if bool_decide (rm = ∅) then (df, missing)
      else
        let df := rename (λ c, default c (rm !! c)) df in
        (df, missing_keys (name_map (columns df))) in
  if bool_decide (missing = []) then
    Ok (reindex df (List.filter (has_col df) TML_COLS))
  else Raise ValueError.

(** [d1.loc[mask] = d2]: the cells that the first parse left missing take
    the results of the second, in order. *)
Fixpoint fill (d1 d2 : list (option Timestamp)) : list (option Timestamp) :=
  match d1 with
  | [] => []
  | Some t :: d1' => Some t :: fill d1' d2
  | None :: d1' =>
      match d2 with
      | x :: d2' => x :: fill d1' d2'
      | [] => None :: fill d1' []
      end
  end.

Section tml.
Context {pd : Pandas}.

(** The dates: the compact format first; the values it fails on go, as
    one series, through the general parse. *)
Definition coerce_dates (col : list cell) : list cell :=
  let d1 := map to_datetime_compact col in
  let mask := map (λ d : option Timestamp, bool_decide (d = None)) d1 in
  if existsb id mask then
    let d2 := parse_dates_flex (boolean_index col mask) in
    map date_cell (fill d1 d2)
  else map date_cell d1.

(** [for c in INTS: if c in df.columns: df[c] = to_numeric(...).astype("Int64")] *)
Fixpoint coerce_ints (df : DataFrame) (cols : list string) : result DataFrame :=
  match cols with
  | [] => Ok df
  | c :: cols' =>
      df ← (if has_col df c then coerce_col df c else Ok df);
      coerce_ints df cols'
  end.

(** A column mapped cell by cell, when the frame has it. *)
Definition map_col (f : cell → cell) (df : DataFrame) (c : string) : DataFrame :=
  match getitem df c with
  | Ok s => setitem df c (map f s)
  | Raise _ => df
  end.

(** The typing stage of [read_file]. *)
Definition coerce (df : DataFrame) : result DataFrame :=
  d ← getitem df "tourney_date";
  let df := setitem df "tourney_date" (coerce_dates d) in
  df ← coerce_ints df INTS;
  let df := foldl (map_col (λ v, float_cell (to_numeric v))) df FLOATS in
  let df := foldl (map_col (λ v, str_strip (astype_string v))) df STRS in
  let df := foldl (λ df c, if has_col df c then df else setitem_na df c) df TARGET_COLS in
  mret (reindex df TARGET_COLS).

Definition read_file (f : Csv) : result DataFrame :=
  df ← read_csv f;
  df ← normalize df;
  coerce df.

(** The loop of [main] over the match files. *)
Fixpoint load_files (files : list Csv) (total : nat) (w : World) : result nat * World :=
  match files with
  | [] => (Ok total, w)
  | f :: files' =>
      match read_file f with
      | Raise e => (Raise e, w)
      | Ok df =>
          match upsert_matches df (print (Line "[tml] rows" [len df]) w) with
          | (Raise e, w) => (Raise e, w)
          | (Ok _, w) => load_files files' (total + len df) w
          end
      end
  end.

(** *** load_players_ref *)

Definition NEED : list string :=
  ["id";"player";"atpname";"ioc";"hand";"backhand";"height";"birthdate"].

Definition PLAYERS_REF_COLS : list string :=
  ["player_id";"player";"atpname";"ioc";"hand";"backhand";"height_cm";"birthdate"].

Definition PLAYERS_REF_KEY : list string := ["player_id"].

(** The [SET] list written out in the statement. *)
Definition PLAYERS_REF_UPDATES : list string :=
  ["player";"atpname";"ioc";"hand";"backhand";"height_cm";"birthdate"].

(** [df[c].astype(str).str.strip()] *)
Definition text_col (df : DataFrame) (c : string) : result (list cell) :=
  s ← getitem df c; mret (map (λ v, str_strip (astype_str v)) s).

(** The reference frame as built from the file. *)
Definition players_ref_frame (f : Csv) : result DataFrame :=
  df ← read_csv f;
  if forallb (has_col df) NEED then
    pid ← text_col df "id";
    player ← text_col df "player";
    atpname ← text_col df "atpname";
    ioc ← text_col df "ioc";
    hand ← text_col df "hand";
    backhand ← text_col df "backhand";
    height ← (s ← getitem df "height"; to_Int64 s);
    birth ← getitem df "birthdate";
    mret (from_columns (len df)
            [("player_id", pid); ("player", player); ("atpname", atpname);
             ("ioc", ioc); ("hand", hand); ("backhand", backhand);
             ("height_cm", height); ("birthdate", to_date birth)])
  else Raise ValueError.

(** The cleanup before staging: identifier present, not empty, and the
    first row of each identifier. *)
Definition clean_players_ref (out : DataFrame) : result DataFrame :=
  s ← getitem out "player_id";
  let out := mask_rows out (notna s) in
  s ← getitem out "player_id";
  let out := mask_rows out (map str_nonempty s) in
  drop_duplicates out PLAYERS_REF_KEY KeepFirst.

Definition load_players_ref (f : Csv) (w : World) : result () * World :=
  match players_ref_frame f with
  | Raise e => (Raise e, w)
  | Ok out =>
      match begin [CREATE_TABLE_IF_NOT_EXISTS "atp.players_ref" PLAYERS_REF_KEY] w with
      | (Raise e, w) => (Raise e, w)
      | (Ok _, w) =>
          match clean_players_ref out with
          | Raise e => (Raise e, w)
          | Ok out =>
              match
                begin [ CREATE_TEMP_AS "tmp_players_ref" "atp.players_ref";
                        COPY "tmp_players_ref" (columns out) (data out);
                        INSERT_ON_CONFLICT "atp.players_ref" "tmp_players_ref"
                          (columns out) PLAYERS_REF_KEY PLAYERS_REF_UPDATES ] w
              with
              | (Raise e, w) => (Raise e, w)
              | (Ok _, w) => (Ok (), print (Line "[players_ref] rows loaded" [len out]) w)
              end
          end
      end
  end.
End tml.

(** ** A small instance of the parsers

    Whole and decimal literals for numbers; eight digits for the compact
    date; the compact or the ISO form, value by value, for the general
    parse.  Dates count days since 1970-01-01. *)

Definition digit (a : ascii) : option Z :=
  let n := nat_of_ascii a in
  if (48 <=? n) && (n <=? 57) then Some (Z.of_nat (n - 48)) else None.

Fixpoint digits (acc : Z) (l : list ascii) : option Z :=
  match l with
  | [] => Some acc
  | a :: l' => d ← digit a; digits (acc * 10 + d) l'
  end.

Definition natural (l : list ascii) : option Z :=
  match l with
  | [] => None
  | _ => digits 0 l
  end.

Definition split_at_dot (l : list ascii) : list ascii * option (list ascii) :=
  match list_find (λ a, a = "."%char) l with
  | Some (i, _) => (take i l, Some (drop (S i) l))
  | None => (l, None)
  end.

Definition unsigned_number (text : string) (l : list ascii) : option number :=
  match split_at_dot l with
  | (w, None) => Whole <$> natural w
  | (w, Some fr) =>
      z ← natural w;
      f ← natural fr;
      mret (if decide (f = 0%Z) then Whole z else Fractional text)
  end.

Definition ref_parse_number (s : string) : option number :=
  match String.list_ascii_of_string s with
  | "-"%char :: l =>
      match unsigned_number s l with
      | Some (Whole z) => Some (Whole (- z))
      | r => r
      end
  | l => unsigned_number s l
  end.

Definition days_in_month (y m : Z) : Z :=
  if decide (m = 2)%Z then
    (if decide ((y mod 4 = 0 ∧ y mod 100 ≠ 0) ∨ y mod 400 = 0)%Z then 29 else 28)%Z
  else if decide (m = 4 ∨ m = 6 ∨ m = 9 ∨ m = 11)%Z then 30%Z
  else 31%Z.

(** Days from 1970-01-01 to a civil date. *)
Definition days_from_civil (y m d : Z) : Z :=
  (let y' := if decide (m ≤ 2) then y - 1 else y in
   let era := y' `div` 400 in
   let yoe := y' - era * 400 in
   let mp := if decide (m ≤ 2) then m + 9 else m - 3 in
   let doy := (153 * mp + 2) `div` 5 + d - 1 in
   let doe := yoe * 365 + yoe `div` 4 - yoe `div` 100 + doy in
   era * 146097 + doe - 719468)%Z.

Definition civil (y m d : Z) : option Timestamp :=
  if decide (1 ≤ m ≤ 12 ∧ 1 ≤ d ≤ days_in_month y m)%Z
  then Some (days_from_civil y m d) else None.

Definition ref_parse_compact_date (s : string) : option Timestamp :=
  let l := String.list_ascii_of_string s in
  if decide (length l = 8) then
    y ← natural (take 4 l);
    m ← natural (take 2 (drop 4 l));
    d ← natural (drop 6 l);
    civil y m d
  else None.

Definition ref_parse_iso_date (s : string) : option Timestamp :=
  let l := String.list_ascii_of_string s in
  if decide (length l = 10 ∧ l !! 4 = Some "-"%char ∧ l !! 7 = Some "-"%char) then
    y ← natural (take 4 l);
    m ← natural (take 2 (drop 5 l));
    d ← natural (drop 8 l);
    civil y m d
  else None.

Definition ref_parse_date_flex (v : cell) : option Timestamp :=
  match v with
  | Some (VStr s) =>
      match ref_parse_compact_date s with
      | Some t => Some t
      | None => ref_parse_iso_date s
      end
  | Some (VDate t) => Some t
  | _ => None
  end.

Definition reference_parsers : Pandas := {|
  parse_number := ref_parse_number;
  parse_compact_date := ref_parse_compact_date;
  parse_dates_flex := map ref_parse_date_flex;
  parse_dates_flex_length := λ s, length_map ref_parse_date_flex s
|}.

(** ** Vocabulary of the statements about the merge *)

(** A proposed row is settled in a list of rows when merging it changes
    nothing. *)
Definition settled (kc upd : list string) (p : row) (rs : list row) : Prop :=
  upsert_row kc upd p rs = rs.

(** The rows of a batch all carry a complete key, and the keys are pairwise
    distinct. *)
Definition deduplicated (kc : list string) (src : list row) : Prop :=
  Forall (λ p, is_Some (key_of kc p)) src ∧ NoDup (complete_keys kc src).

(** The rows of a relation; none when the relation does not exist. *)
Definition table_rows (name : string) (w : World) : list row :=
  match tables w !! name with
  | Some t => rows t
  | None => []
  end.

(** The three key cells of a row in target layout are present. *)
Definition match_key_present (r : list cell) : bool :=
  bool_decide (is_Some (cell_at r 0))
  && bool_decide (is_Some (cell_at r 5))
  && bool_decide (is_Some (cell_at r 6)).

(** The records that [upsert_matches] stages for a frame. *)
Definition staged_records (df : DataFrame) : list row :=
  match key_mask df with
  | Ok mask => records TARGET_COLS (data (staged df mask))
  | Raise _ => []
  end.

(** A batch has been applied to a list of rows: each of its keys names a
    row that holds the batch's value in every column of [cols]; the rows
    under other keys are the same rows, in the same order. *)
Definition applied (kc cols : list string) (batch before after : list row) : Prop :=
  (∀ p, p ∈ batch →
     ∃ e, e ∈ after ∧ key_of kc e = key_of kc p ∧ ∀ c, c ∈ cols → e !! c = p !! c)
  ∧ filter (λ e, key_of kc e ∉ key_of kc <$> batch) after
    = filter (λ e, key_of kc e ∉ key_of kc <$> batch) before.

(** Rows come in key order: no row is smaller than the one before it. *)
Definition key_sorted {A} (key : A → list cell) (l : list A) : Prop :=
  Sorted (λ a b, key_ltb (key b) (key a) = false) l.

(** The key cells of a rankings row: date and player. *)
Definition ranking_key (r : list cell) : list cell := row_key [0; 2] r.

(** The key cell of a players reference row. *)
Definition players_ref_key (r : list cell) : list cell := row_key [0] r.

(** The records that [load_players_ref] stages for a file. *)
Definition players_ref_records {pd : Pandas} (f : Csv) : list row :=
  match players_ref_frame f ≫= clean_players_ref with
  | Ok out => records (columns out) (data out)
  | Raise _ => []
  end.

(** The rows of a reference frame that carry an identifier which is not
    the empty text: those that reach its deduplication. *)
Definition with_identifier (rs : list (list cell)) : list (list cell) :=
  List.filter (λ r, str_nonempty (cell_at r 0))
    (List.filter (λ r, bool_decide (is_Some (cell_at r 0))) rs).

(** The statements sent between two states of the world, and the rows
    that the COPY statements among them carry. *)
Definition sent_by (w w' : World) : list stmt :=
  drop (length (issued w)) (issued w').

Fixpoint copied (ss : list stmt) : list (list cell) :=
  match ss with
  | [] => []
  | COPY _ _ rs :: ss' => rs ++ copied ss'
  | _ :: ss' => copied ss'
  end.

(** [df.at[j, c]]: the cell of row [j] under column [c], when both exist. *)
Definition cell_of (df : DataFrame) (j : nat) (c : string) : option cell :=
  r ← data df !! j;
  i ← col_index (columns df) c;
  Some (cell_at r i).

(** The nullable integer a parsed number is cast to. *)
Definition int_cell (x : option number) : cell :=
  match x with
  | Some (Whole z) => Some (VInt z)
  | _ => None
  end.

(** A cell whose number, if it parses as one, is whole: the cast to
    [Int64] accepts it. *)
Definition castable {pd : Pandas} (v : cell) : bool :=
  match to_numeric v with
  | Some (Fractional _) => false
  | _ => true
  end.

(** Every cell of the columns [cols] that the frame has is castable. *)
Definition all_castable {pd : Pandas} (df : DataFrame) (cols : list string) : bool :=
  forallb (λ c, match getitem df c with
                | Ok s => forallb castable s
                | Raise _ => true
                end) cols.

(** The loop shared by the two integer coercions: a listed column that the
    frame has is cast; [absent] says what becomes of a frame that lacks
    it. *)
Fixpoint coerce_cols_with {pd : Pandas} (absent : DataFrame → string → DataFrame)
    (df : DataFrame) (cols : list string) : result DataFrame :=
  match cols with
  | [] => Ok df
  | c :: cols' =>
      df ← (if has_col df c then coerce_col df c else Ok (absent df c));
      coerce_cols_with absent df cols'
  end.

(** The cells the compact date format fails on: the series handed to the
    general parse. *)
Definition compact_fails {pd : Pandas} (v : cell) : bool :=
  bool_decide (to_datetime_compact v = None).

Definition failing {pd : Pandas} (col : list cell) : list cell :=
  List.filter compact_fails col.

(** The fields a players file must provide, each with the source names
    under which it is accepted. *)
Definition REQUIRED_PLAYER_FIELDS : list (list string) :=
  [ ["player_id"]; ["first_name"; "name_first"]; ["last_name"; "name_last"];
    ["hand"]; ["birth_date"; "dob"]; ["country_code"; "ioc"] ].

(** A field is resolved when one of its accepted names is a column. *)
Definition resolved (names cands : list string) : Prop :=
  ∃ c, c ∈ cands ∧ c ∈ names.

(** The seven fields of a player in the positional order of a file
    without header, each with its accepted source names. *)
Definition PLAYER_FIELDS : list (list string) :=
  REQUIRED_PLAYER_FIELDS ++ [ ["height_cm"; "height"] ].

(** The headers that name each position by one of its accepted names. *)
Fixpoint choices (fields : list (list string)) : list (list string) :=
  match fields with
  | [] => [[]]
  | names :: fields' => flat_map (λ h, map (cons h) (choices fields')) names
  end.

(** A header is positional when it is taken for a header, has seven
    names, and the column picked for each field is the one at the
    position of the field. *)
Definition positional (header : list string) : bool :=
  has_header header
  && bool_decide (length header = 7)
  && bool_decide
       (map (λ names, pick (mkDF header []) names ≫= col_index header) PLAYER_FIELDS
        = map Some (seq 0 7)).

(** ** Sample data

    Small inputs on which the loaders are evaluated. *)

(** A row in target layout holding a key and a score. *)
Definition match_row (tourney : string) (date num : Z) (score : string) : list cell :=
  map (λ c : string,
         if decide (c = "tourney_id") then Some (VStr tourney)
         else if decide (c = "tourney_date") then Some (VDate date)
         else if decide (c = "match_num") then Some (VInt num)
         else if decide (c = "score") then Some (VStr score)
         else None) TARGET_COLS.

Definition sample_matches : DataFrame :=
  mkDF TARGET_COLS
    [match_row "2024-0339" 19737 1 "6-4 6-4"; match_row "2024-0339" 19737 2 "7-6 6-3"].

(** A later extract: the first match again, its score corrected. *)
Definition sample_update : DataFrame :=
  mkDF TARGET_COLS [match_row "2024-0339" 19737 1 "6-4 6-3"].

(** A store whose match table declares the unique index of the upsert. *)
Definition sample_world : World :=
  mkWorld {[ "atp.matches" := mkTable (Some MATCH_KEY) [] ]} [] [].

(** A store whose match table declares no unique index. *)
Definition plain_world : World :=
  mkWorld {[ "atp.matches" := mkTable None [] ]} [] [].

(** A Sackmann match file of one match, and one whose match number is
    blank. *)
Definition sackmann_file : Csv :=
  [ ["tourney_id"; "tourney_date"; "match_num"; "score"];
    ["2024-0339"; "20240115"; "1"; "6-4 6-4"] ].

Definition sackmann_file_blank_num : Csv :=
  [ ["tourney_id"; "tourney_date"; "match_num"; "score"];
    ["2024-0339"; "20240115"; ""; "6-4 6-4"] ].

(** Two rankings rows for one date and player, with different points,
    and the file that lists them in this order. *)
Definition ranking_a : list cell :=
  [Some (VDate 18267%Z); Some (VInt 1%Z); Some (VInt 104745%Z); Some (VInt 9985%Z)].

Definition ranking_b : list cell :=
  [Some (VDate 18267%Z); Some (VInt 1%Z); Some (VInt 104745%Z); Some (VInt 10235%Z)].

Definition rankings_file : Csv :=
  [ ["20200106"; "1"; "104745"; "9985"];
    ["20200106"; "1"; "104745"; "10235"] ].

(** Two reference rows for one player identifier. *)
Definition player_a : list cell :=
  [Some (VStr "F324"); Some (VStr "Roger Federer"); Some (VStr "roger-federer");
   Some (VStr "SUI"); Some (VStr "R"); Some (VStr "1"); Some (VInt 185%Z);
   Some (VDate 4237%Z)].

Definition player_b : list cell :=
  [Some (VStr "F324"); Some (VStr "R. Federer"); Some (VStr "roger-federer");
   Some (VStr "SUI"); Some (VStr "R"); Some (VStr "1"); Some (VInt 186%Z);
   Some (VDate 4237%Z)].

(** A raw frame with one malformed and one well-formed duration, and one
    with a duration that is a number but not a whole one. *)
Definition sample_raw : DataFrame :=
  mkDF ["tourney_id"; "minutes"; "score"]
    [ [Some (VStr "2024-0339"); Some (VStr "abc"); Some (VStr "6-4 6-4")];
      [Some (VStr "2024-0339"); Some (VStr "95"); Some (VStr "7-6 6-3")] ].

Definition sample_fraction : DataFrame :=
  mkDF ["tourney_id"; "minutes"; "score"]
    [ [Some (VStr "2024-0339"); Some (VStr "95.5"); Some (VStr "6-4 6-4")] ].

(** A date column: compact, ISO, and not a date. *)
Definition sample_dates : list cell :=
  [Some (VStr "20240115"); Some (VStr "2024-01-16"); Some (VStr "soon")].

(** A Sackmann match file whose date is written in the ISO form. *)
Definition sackmann_file_iso : Csv :=
  [ ["tourney_id"; "tourney_date"; "match_num"; "score"];
    ["2024-0339"; "2024-01-15"; "1"; "6-4 6-4"] ].

(** A players file whose header lacks the hand, and a TML file whose
    header has three columns only. *)
Definition players_file_without_hand : Csv :=
  [ ["player_id"; "name_first"; "name_last"; "dob"; "ioc"];
    ["100644"; "Alexander"; "Zverev"; "19970420"; "GER"] ].

Definition tml_file_short : Csv :=
  [ ["Tourney ID"; "Tourney Date"; "Match Num"];
    ["2024-0339"; "20240115"; "1"] ].

(** A row in target layout that carries a tournament and a score but
    neither date nor match number, and a frame that holds it after a
    complete row. *)
Definition keyless_row : list cell :=
  map (λ c : string,
         if decide (c = "tourney_id") then Some (VStr "2024-0339")
         else if decide (c = "score") then Some (VStr "6-1 6-1")
         else None) TARGET_COLS.

Definition sample_with_keyless : DataFrame :=
  mkDF TARGET_COLS [match_row "2024-0339" 19737 1 "6-4 6-4"; keyless_row].

(** A players file in the positional layout, and a header that names the
    same columns by their other accepted names. *)
Definition players_file_legacy : Csv :=
  [ ["104745"; "Rafael"; "Nadal"; "L"; "19860603"; "ESP"; "185"] ].

Definition players_header_synonyms : list string :=
  ["player_id"; "name_first"; "name_last"; "hand"; "dob"; "ioc"; "height"].

(** * Properties *)

(** ** The merge statement on lists of rows *)

Section merge.
Context (kc upd : list string).
Hypothesis upd_not_key : ∀ c, c ∈ upd → c ∉ kc.

Lemma do_update_lookup (e p : row) c :
  do_update upd e p !! c = if decide (c ∈ upd) then p !! c else e !! c.
Proof using Type.
  clear upd_not_key. unfold do_update.
  induction upd as [|c0 u IH]; cbn [foldr].
  - rewrite decide_False; [done | apply not_elem_of_nil].
  - destruct (decide (c0 = c)) as [->|Hne].
    + rewrite lookup_partial_alter_eq. rewrite decide_True; [done | by left].
    + rewrite lookup_partial_alter_ne by done. rewrite IH.
      destruct (decide (c ∈ u)) as [Hin|Hin].
      * rewrite decide_True; [done | by right].
      * rewrite decide_False; [done|].
        intros [?|?]%elem_of_cons; [congruence | done].
Qed.

Lemma key_of_ext (r1 r2 : row) :
  (∀ c, c ∈ kc → r1 !! c = r2 !! c) → key_of kc r1 = key_of kc r2.
Proof using Type.
  clear upd_not_key. unfold key_of. intros H.
  apply mapM_ext_in || (induction kc as [|c k IH]; [done|];
    cbn; rewrite (H c) by (by left); rewrite IH; [done|]; intros; apply H; by right).
Qed.

Lemma key_of_do_update (e p : row) : key_of kc (do_update upd e p) = key_of kc e.
Proof using upd_not_key.
  apply key_of_ext. intros c Hc. rewrite do_update_lookup.
  case_decide as Hin; [|done]. by apply upd_not_key in Hin.
Qed.

Lemma do_update_idem (e p : row) :
  do_update upd (do_update upd e p) p = do_update upd e p.
Proof using Type.
  apply map_eq. intros c. rewrite !do_update_lookup. by case_decide.
Qed.

Lemma do_update_self (p : row) : do_update upd p p = p.
Proof using Type.
  apply map_eq. intros c. rewrite do_update_lookup. by case_decide.
Qed.

#[local] Abbreviation settled := (settled kc upd).
#[local] Abbreviation deduplicated := (deduplicated kc).

Lemma conflict_do_update (e p q : row) :
  conflict kc (do_update upd e q) p ↔ conflict kc e p.
Proof using upd_not_key. unfold conflict. by rewrite key_of_do_update. Qed.

Lemma upsert_row_settled (p : row) rs :
  is_Some (key_of kc p) → settled p (upsert_row kc upd p rs).
Proof using upd_not_key.
  intros Hp. unfold settled. induction rs as [|e rs IH]; simpl.
  - rewrite decide_True by done. by rewrite do_update_self.
  - destruct (decide (conflict kc e p)) as [Hc|Hc]; simpl.
    + rewrite decide_True by (by apply conflict_do_update).
      by rewrite do_update_idem.
    + rewrite decide_False by done. by rewrite IH.
Qed.

Lemma settled_upsert_row (p q : row) rs :
  key_of kc q ≠ key_of kc p → settled p rs → settled p (upsert_row kc upd q rs).
Proof using upd_not_key.
  intros Hne. unfold settled. induction rs as [|e rs IH]; simpl; [done|].
  destruct (decide (conflict kc e p)) as [Hp|Hp]; intros Heq.
  - injection Heq as He. destruct (decide (conflict kc e q)) as [Hq|Hq]; simpl.
    + exfalso. destruct Hp as [_ Hp], Hq as [_ Hq]. congruence.
    + rewrite decide_True by done. by rewrite He.
  - injection Heq as Hrs. destruct (decide (conflict kc e q)) as [Hq|Hq]; simpl.
    + rewrite decide_False by (by rewrite conflict_do_update). by rewrite Hrs.
    + rewrite decide_False by done. by rewrite IH.
Qed.

Lemma settled_upsert_rows (p : row) src rs :
  (∀ q, q ∈ src → key_of kc q ≠ key_of kc p) →
  settled p rs → settled p (upsert_rows kc upd src rs).
Proof using upd_not_key.
  unfold upsert_rows. revert rs. induction src as [|q src IH]; intros rs Hk Hs; simpl; [done|].
  apply IH.
  - intros q' Hq'. apply Hk. by right.
  - apply settled_upsert_row; [|done]. apply Hk. by left.
Qed.

Lemma upsert_rows_settled src rs :
  (∀ p, p ∈ src → settled p rs) → upsert_rows kc upd src rs = rs.
Proof using Type.
  unfold upsert_rows, settled. induction src as [|q src IH]; intros H; simpl; [done|].
  rewrite (H q) by (by left). apply IH. intros; apply H. by right.
Qed.


Lemma deduplicated_cons (q : row) src :
  deduplicated (q :: src) →
  is_Some (key_of kc q) ∧ (∀ p, p ∈ src → key_of kc p ≠ key_of kc q) ∧ deduplicated src.
Proof using Type.
  intros [Hc Hn]. apply Forall_cons in Hc as [[k Hq] Hc].
  unfold complete_keys in Hn. simpl in Hn. rewrite Hq in Hn. simpl in Hn.
  apply NoDup_cons in Hn as [Hk Hn]. split_and!; [by eexists| |done].
  intros p Hp Heq. apply Hk. apply list_elem_of_omap. exists p. split; [done|congruence].
Qed.

Lemma upsert_rows_all_settled src rs :
  deduplicated src → ∀ p, p ∈ src → settled p (upsert_rows kc upd src rs).
Proof using upd_not_key.
  revert rs. induction src as [|q src IH]; intros rs Hd p Hp.
  - by apply elem_of_nil in Hp.
  - apply deduplicated_cons in Hd as (Hq & Hne & Hd).
    change (upsert_rows kc upd (q :: src) rs) with (upsert_rows kc upd src (upsert_row kc upd q rs)).
    apply elem_of_cons in Hp as [->|Hp].
    + apply settled_upsert_rows; [done|]. by apply upsert_row_settled.
    + by apply IH.
Qed.

Lemma upsert_rows_idem src rs :
  deduplicated src →
  upsert_rows kc upd src (upsert_rows kc upd src rs) = upsert_rows kc upd src rs.
Proof using upd_not_key.
  intros Hd. apply upsert_rows_settled. intros p Hp. by apply upsert_rows_all_settled.
Qed.

Lemma key_of_lookup (e p : row) c :
  is_Some (key_of kc p) → key_of kc e = key_of kc p → c ∈ kc → e !! c = p !! c.
Proof using Type.
  clear upd_not_key. unfold key_of. induction kc as [|c0 k IH]; intros Hp Heq Hc.
  - by apply elem_of_nil in Hc.
  - cbn in Hp, Heq.
    destruct (p !! c0) as [v|] eqn:Hv; cbn in Hp, Heq; [|by destruct Hp].
    destruct (mapM (λ c, p !! c) k) as [vs|] eqn:Hvs; cbn in Hp, Heq; [|by destruct Hp].
    destruct (e !! c0) as [v'|] eqn:Hv'; cbn in Heq; [|done].
    destruct (mapM (λ c, e !! c) k) as [vs'|] eqn:Hvs'; cbn in Heq; [|done].
    injection Heq as -> ->.
    apply elem_of_cons in Hc as [->|Hc]; [congruence|].
    apply IH; [by eexists | done | done].
Qed.

Lemma settled_inv (p : row) rs :
  settled p rs →
  ∃ e, e ∈ rs ∧ key_of kc e = key_of kc p ∧ ∀ c, c ∈ upd → e !! c = p !! c.
Proof using Type.
  clear upd_not_key. unfold settled. induction rs as [|e rs IH]; cbn [upsert_row]; [done|].
  destruct (decide (conflict kc e p)) as [Hc|Hc]; intros Heq; injection Heq as Heq.
  - exists e. split_and!; [by left | by destruct Hc |].
    intros c Hin. rewrite <- Heq at 1. rewrite do_update_lookup. by rewrite decide_True.
  - destruct (IH Heq) as (e' & ? & ? & ?). exists e'. split_and!; [by right | done | done].
Qed.

(** Rows whose key is not among [keys] are neither changed nor created
    by merging a row whose key is. *)
Lemma filter_upsert_row (keys : list (option (list value))) (p : row) rs :
  key_of kc p ∈ keys →
  filter (λ e, key_of kc e ∉ keys) (upsert_row kc upd p rs)
  = filter (λ e, key_of kc e ∉ keys) rs.
Proof using upd_not_key.
  intros Hp. induction rs as [|e rs IH]; cbn [upsert_row].
  - by rewrite filter_cons_False by (by intros H; apply H).
  - destruct (decide (conflict kc e p)) as [Hc|Hc].
    + destruct Hc as [_ Hc].
      rewrite !filter_cons_False; [done | |].
      * rewrite Hc. by intros H; apply H.
      * rewrite key_of_do_update, Hc. by intros H; apply H.
    + by rewrite !filter_cons, IH.
Qed.

Lemma filter_upsert_rows (keys : list (option (list value))) src rs :
  (∀ p, p ∈ src → key_of kc p ∈ keys) →
  filter (λ e, key_of kc e ∉ keys) (upsert_rows kc upd src rs)
  = filter (λ e, key_of kc e ∉ keys) rs.
Proof using upd_not_key.
  unfold upsert_rows. revert rs. induction src as [|q src IH]; intros rs H; cbn [foldl]; [done|].
  rewrite IH by (intros; apply H; by right).
  apply filter_upsert_row. apply H. by left.
Qed.

Lemma upsert_row_cases (p : row) rs :
  complete_keys kc (upsert_row kc upd p rs) = complete_keys kc rs
  ∨ ((∀ e, e ∈ rs → ¬ conflict kc e p) ∧ upsert_row kc upd p rs = rs ++ [p]).
Proof using upd_not_key.
  induction rs as [|e rs IH]; cbn [upsert_row].
  - right. split; [|done]. by intros e ?%elem_of_nil.
  - destruct (decide (conflict kc e p)) as [Hc|Hc].
    + left. unfold complete_keys. cbn. by rewrite key_of_do_update.
    + destruct IH as [IH|[IH1 IH2]].
      * left. unfold complete_keys in *. cbn. by rewrite IH.
      * right. split; [|by rewrite IH2].
        intros e' [->|?]%elem_of_cons; [done | by apply IH1].
Qed.

Lemma NoDup_upsert_row (p : row) rs :
  NoDup (complete_keys kc rs) → NoDup (complete_keys kc (upsert_row kc upd p rs)).
Proof using upd_not_key.
  intros Hn. destruct (upsert_row_cases p rs) as [->|[Hc ->]]; [done|].
  unfold complete_keys in *. rewrite omap_app. cbn.
  destruct (key_of kc p) as [k|] eqn:Hk; cbn; [|by rewrite app_nil_r].
  apply NoDup_app. split_and!; [done | | apply NoDup_singleton].
  intros k' Hin ->%list_elem_of_singleton.
  apply list_elem_of_omap in Hin as (e & He & Hke).
  apply (Hc e He). split; [by eexists | congruence].
Qed.

Lemma NoDup_upsert_rows src rs :
  NoDup (complete_keys kc rs) → NoDup (complete_keys kc (upsert_rows kc upd src rs)).
Proof using upd_not_key.
  unfold upsert_rows. revert rs. induction src as [|q src IH]; intros rs H; cbn [foldl]; [done|].
  apply IH. by apply NoDup_upsert_row.
Qed.

(** Under the unique index a complete key names one row. *)
Lemma unique_row (e1 e2 : row) rs :
  NoDup (complete_keys kc rs) → e1 ∈ rs → e2 ∈ rs →
  is_Some (key_of kc e1) → key_of kc e1 = key_of kc e2 → e1 = e2.
Proof using Type.
  clear upd_not_key. intros Hn H1 H2 [k Hk] Heq.
  induction rs as [|e rs IH]; [by apply elem_of_nil in H1|].
  unfold complete_keys in *. cbn in Hn.
  assert (∀ x, x ∈ rs → key_of kc x = Some k → k ∈ omap (key_of kc) rs) as Hin.
  { intros x ? ?. apply list_elem_of_omap. by exists x. }
  apply elem_of_cons in H1 as [->|H1]; apply elem_of_cons in H2 as [->|H2]; [done| | |].
  - rewrite Hk in Hn. cbn in Hn. apply NoDup_cons in Hn as [Hn _].
    exfalso. apply Hn. apply (Hin e2); [done|congruence].
  - rewrite <- Heq, Hk in Hn. cbn in Hn. apply NoDup_cons in Hn as [Hn _].
    exfalso. apply Hn. by apply (Hin e1).
  - apply IH; [|done|done]. destruct (key_of kc e); cbn in Hn; [by apply NoDup_cons in Hn as [_ ?] | done].
Qed.
End merge.

(** ** Frames and records *)

Lemma row_of_dom cols (r : list cell) c v : row_of cols r !! c = Some v → c ∈ cols.
Proof.
  revert r. induction cols as [|c0 cols IH]; intros [|[x|] r]; cbn [row_of]; try done.
  - destruct (decide (c0 = c)) as [->|Hne]; [by left|].
    rewrite lookup_insert_ne by done. right. by eapply IH.
  - intros [_ H]%lookup_delete_Some. right. by eapply IH.
Qed.

Lemma project_row_of cols (r : list cell) : project cols (row_of cols r) = row_of cols r.
Proof.
  unfold project. apply map_filter_id. intros c v H. cbn. by eapply row_of_dom.
Qed.

Lemma project_records cols rs : map (project cols) (records cols rs) = records cols rs.
Proof.
  unfold records. rewrite map_map. apply map_ext. intros. apply project_row_of.
Qed.

Lemma col_index_Some cols c i :
  col_index cols c = Some i → cols !! i = Some c ∧ ∀ j, j < i → cols !! j ≠ Some c.
Proof.
  unfold col_index. intros H. apply fmap_Some in H as ([i' x] & Hf & ->).
  apply list_find_Some in Hf as (H1 & -> & H3). split; [done|].
  intros j Hj Hc. by apply (H3 j c).
Qed.

Lemma row_of_lookup cols (r : list cell) c i :
  col_index cols c = Some i → row_of cols r !! c = cell_at r i.
Proof.
  intros (Hi & Hfirst)%col_index_Some. unfold cell_at.
  revert r i Hi Hfirst. induction cols as [|c0 cols IH]; intros r i Hi Hfirst; [done|].
  destruct i as [|i].
  - injection Hi as ->. destruct r as [|[x|] r]; cbn; [done| by rewrite lookup_insert_eq | by rewrite lookup_delete_eq].
  - assert (c0 ≠ c) as Hne. { intros ->. by apply (Hfirst 0); [lia|]. }
    assert (∀ j, j < i → cols !! j ≠ Some c) as Hf'. { intros j Hj. apply (Hfirst (S j)). lia. }
    destruct r as [|[x|] r]; cbn [row_of].
    + done.
    + rewrite lookup_insert_ne by done. exact (IH r i Hi Hf').
    + rewrite lookup_delete_ne by done. exact (IH r i Hi Hf').
Qed.

Lemma boolean_index_map {A} (f : A → bool) (l : list A) :
  boolean_index l (map f l) = List.filter f l.
Proof. induction l as [|x l IH]; cbn; [done|]. destruct (f x); by rewrite IH. Qed.

(** ** Transactions *)

Lemma begin_raise body w e w' :
  begin body w = (Raise e, w') → tables w' = tables w.
Proof.
  unfold begin. destruct (run body (tables w)) as [[ts'|] sent]; intros ?; by simplify_eq.
Qed.

Lemma begin_ok body w w' :
  begin body w = (Ok (), w') →
  ∃ ts' sent, run body (tables w) = (Some ts', sent) ∧ tables w' = commit sent ts'
    ∧ stdout w' = stdout w.
Proof.
  unfold begin. destruct (run body (tables w)) as [[ts'|] sent]; intros ?; simplify_eq; eauto.
Qed.

(** The stage-then-merge transaction of [upsert_matches], on any pair of
    relation names. *)
Lemma run_stage_merge_like (ts : relations) tmp tgt cols kc upd rs :
  tmp ≠ tgt →
  ∀ ts' sent,
  run [CREATE_TEMP_LIKE tmp tgt; COPY tmp cols rs; INSERT_ON_CONFLICT tgt tmp cols kc upd] ts
    = (Some ts', sent) →
  ∃ t, ts !! tmp = None ∧ ts !! tgt = Some t ∧ unique_cols t = Some kc
       ∧ NoDup (complete_keys kc (records cols rs))
       ∧ commit sent ts'
         = <[tgt := mkTable (unique_cols t) (upsert_rows kc upd (records cols rs) (rows t))]> ts.
Proof.
  intros Hne ts' sent. cbn [run exec].
  destruct (ts !! tmp) as [?|] eqn:Htmp; [done|].
  destruct (ts !! tgt) as [t|] eqn:Htgt; [|done].
  rewrite lookup_insert_eq. cbn [mbind option_bind]. unfold copy_rows. cbn [rows unique_cols app].
  destruct (unique_ok (unique_cols t) (records cols rs)); [|done]. cbn [mbind option_bind].
  rewrite insert_insert_eq, lookup_insert_eq, lookup_insert_ne, Htgt by done.
  cbn [mbind option_bind]. unfold insert_on_conflict. cbn [rows unique_cols].
  destruct (decide (unique_cols t = Some kc)) as [Hu|]; [|done].
  rewrite project_records.
  destruct (bool_decide (NoDup (complete_keys kc (records cols rs)))) eqn:Hd; [|done].
  cbn [mbind option_bind]. intros [= <- <-]. exists t. split_and!; try done.
  - by apply bool_decide_eq_true in Hd.
  - unfold commit. cbn. rewrite delete_insert_ne by done. by rewrite delete_insert_id.
Qed.

Lemma run_stage_merge_like_ok (ts : relations) tmp tgt cols kc upd rs t :
  tmp ≠ tgt → ts !! tmp = None → ts !! tgt = Some t → unique_cols t = Some kc →
  NoDup (complete_keys kc (records cols rs)) →
  ∃ ts' sent,
  run [CREATE_TEMP_LIKE tmp tgt; COPY tmp cols rs; INSERT_ON_CONFLICT tgt tmp cols kc upd] ts
    = (Some ts', sent).
Proof.
  intros Hne Htmp Htgt Hu Hd. cbn [run exec]. rewrite Htmp, Htgt.
  rewrite lookup_insert_eq. cbn [mbind option_bind]. unfold copy_rows. cbn [rows unique_cols app].
  rewrite Hu. cbn [unique_ok]. rewrite bool_decide_eq_true_2 by done. cbn [mbind option_bind].
  rewrite insert_insert_eq, lookup_insert_eq, lookup_insert_ne, Htgt by done.
  cbn [mbind option_bind]. unfold insert_on_conflict. cbn [rows unique_cols].
  rewrite Hu, decide_True by done. rewrite project_records.
  rewrite bool_decide_eq_true_2 by done. cbn [mbind option_bind]. eauto.
Qed.

(** ** The match upsert *)

Lemma updates_not_key c : c ∈ updates → c ∉ MATCH_KEY.
Proof. unfold updates. by intros [? _]%list_elem_of_filter. Qed.

Lemma target_key_or_update c : c ∈ TARGET_COLS → c ∈ MATCH_KEY ∨ c ∈ updates.
Proof.
  intros Hc. destruct (decide (c ∈ MATCH_KEY)) as [?|Hn]; [by left|right].
  unfold updates. by apply list_elem_of_filter.
Qed.

Lemma zip_with_map {A B C D} (f : B → C → D) (g : A → B) (h : A → C) (l : list A) :
  zip_with f (map g l) (map h l) = map (λ x, f (g x) (h x)) l.
Proof. induction l as [|x l IH]; cbn; [done | by rewrite IH]. Qed.

Lemma key_mask_target df :
  columns df = TARGET_COLS → key_mask df = Ok (map match_key_present (data df)).
Proof.
  intros Hc. unfold key_mask, getitem. rewrite Hc.
  replace (col_index TARGET_COLS "tourney_id") with (Some 0%nat) by (by vm_compute).
  replace (col_index TARGET_COLS "tourney_date") with (Some 5%nat) by (by vm_compute).
  replace (col_index TARGET_COLS "match_num") with (Some 6%nat) by (by vm_compute).
  cbn [mbind result_bind mret result_ret]. f_equal.
  unfold mask_and, notna. rewrite !map_map. rewrite zip_with_map.
  rewrite (zip_with_map andb). done.
Qed.

Lemma match_key_present_key (r : list cell) :
  match_key_present r = true ↔ is_Some (key_of MATCH_KEY (row_of TARGET_COLS r)).
Proof.
  unfold match_key_present, key_of, MATCH_KEY. rewrite mapM_is_Some.
  rewrite !Forall_cons, Forall_nil. cbn [compose].
  rewrite (row_of_lookup TARGET_COLS r "tourney_id" 0) by (by vm_compute).
  rewrite (row_of_lookup TARGET_COLS r "tourney_date" 5) by (by vm_compute).
  rewrite (row_of_lookup TARGET_COLS r "match_num" 6) by (by vm_compute).
  rewrite !andb_true_iff, !bool_decide_eq_true. tauto.
Qed.

Lemma staged_target df mask :
  columns df = TARGET_COLS → key_mask df = Ok mask →
  data (staged df mask) = List.filter match_key_present (data df).
Proof.
  intros Hc Hm. rewrite key_mask_target in Hm by done. injection Hm as <-.
  unfold staged, mask_rows. cbn [data]. apply boolean_index_map.
Qed.

Lemma staged_records_complete df :
  columns df = TARGET_COLS →
  Forall (λ p, is_Some (key_of MATCH_KEY p)) (staged_records df).
Proof.
  intros Hc. unfold staged_records.
  destruct (key_mask df) as [mask|] eqn:Hm; [|by apply Forall_nil].
  rewrite (staged_target df mask) by done. unfold records.
  apply Forall_forall. intros p Hp. apply list_elem_of_In in Hp.
  apply in_map_iff in Hp as (r & <- & Hr). apply filter_In in Hr as [_ Hr].
  by apply match_key_present_key.
Qed.

(** What the upsert does, by cases. *)
Lemma upsert_matches_inv df w r w' :
  upsert_matches df w = (r, w') →
  (r = Ok () ∧ empty df = true ∧ w' = w)
  ∨ (∃ e, r = Raise e ∧ tables w' = tables w)
  ∨ (r = Ok () ∧ empty df = false ∧
     ∃ t, tables w !! "tmp_tml" = None
       ∧ tables w !! "atp.matches" = Some t
       ∧ unique_cols t = Some MATCH_KEY
       ∧ NoDup (complete_keys MATCH_KEY (staged_records df))
       ∧ tables w' = <["atp.matches" :=
            mkTable (unique_cols t)
              (upsert_rows MATCH_KEY updates (staged_records df) (rows t))]> (tables w)).
Proof.
  unfold upsert_matches, staged_records.
  destruct (empty df) eqn:He; [intros ?; simplify_eq; by left|].
  destruct (key_mask df) as [mask|e] eqn:Hm; [|intros ?; simplify_eq; right; left; eauto].
  set (w0 := if decide (len df - mask_sum mask = 0) then w else _).
  assert (tables w0 = tables w) as Hw0 by (subst w0; by case_decide).
  destruct r as [[]|e]; intros Hb.
  - right; right. split_and!; [done..|].
    apply begin_ok in Hb as (ts' & sent & Hrun & Ht & _).
    apply run_stage_merge_like in Hrun as (t & ? & ? & ? & ? & Hc); [|done].
    exists t. rewrite <- Hw0. rewrite Ht, Hc. done.
  - right; left. exists e. split; [done|]. apply begin_raise in Hb. congruence.
Qed.

(** The upsert reads the world through its relations only. *)
Lemma upsert_matches_tables df w1 w2 :
  tables w1 = tables w2 →
  (upsert_matches df w1).1 = (upsert_matches df w2).1
  ∧ tables (upsert_matches df w1).2 = tables (upsert_matches df w2).2.
Proof.
  intros Ht. unfold upsert_matches.
  destruct (empty df); [done|]. destruct (key_mask df) as [mask|e]; [|done].
  unfold begin. case_decide; cbn [print tables]; rewrite Ht;
    by destruct (run _ (tables w2)) as [[?|] ?].
Qed.

Lemma upsert_matches_progress df w t :
  empty df = false →
  columns df = TARGET_COLS →
  tables w !! "tmp_tml" = None →
  tables w !! "atp.matches" = Some t →
  unique_cols t = Some MATCH_KEY →
  NoDup (complete_keys MATCH_KEY (staged_records df)) →
  ∃ w', upsert_matches df w = (Ok (), w').
Proof.
  intros He Hc Htmp Htgt Hu Hd. unfold upsert_matches, staged_records in *.
  rewrite He. rewrite key_mask_target in * by done.
  set (mask := map match_key_present (data df)) in *.
  set (w0 := if decide (len df - mask_sum mask = 0) then w else _).
  assert (tables w0 = tables w) as Hw0 by (subst w0; by case_decide).
  destruct (run_stage_merge_like_ok (tables w0) "tmp_tml" "atp.matches" TARGET_COLS
              MATCH_KEY updates (data (staged df mask)) t) as (ts' & sent & Hrun);
    [done | by rewrite Hw0 | by rewrite Hw0 | done | done |].
  unfold begin. rewrite Hrun. eauto.
Qed.

Lemma staged_records_deduplicated df :
  columns df = TARGET_COLS →
  NoDup (complete_keys MATCH_KEY (staged_records df)) →
  deduplicated MATCH_KEY (staged_records df).
Proof. intros Hc Hn. split; [by apply staged_records_complete | done]. Qed.

Lemma upsert_matches_twice df w r1 w1 r2 w2 :
  columns df = TARGET_COLS →
  upsert_matches df w = (r1, w1) →
  upsert_matches df w1 = (r2, w2) →
  r2 = r1 ∧ tables w2 = tables w1.
Proof.
  intros Hcols H1 H2.
  destruct (upsert_matches_inv _ _ _ _ H1)
    as [(-> & He & ->) | [(e & -> & Ht) | (-> & He & t & Htmp & Htgt & Hu & Hd & Ht)]].
  - rewrite H1 in H2. by simplify_eq.
  - destruct (upsert_matches_tables df w1 w Ht) as [Hr Hts].
    rewrite H1, H2 in Hr, Hts. cbn in Hr, Hts. by subst.
  - set (t1 := mkTable (unique_cols t)
                 (upsert_rows MATCH_KEY updates (staged_records df) (rows t))) in *.
    destruct (upsert_matches_progress df w1 t1) as [w' Hok]; try done.
    + rewrite Ht. by rewrite lookup_insert_ne.
    + rewrite Ht. by rewrite lookup_insert_eq.
    + rewrite Hok in H2. injection H2 as <- <-.
      destruct (upsert_matches_inv _ _ _ _ Hok)
        as [(_ & He' & _) | [(e & ? & _) | (_ & _ & t' & _ & Htgt' & _ & _ & Ht')]];
        [congruence | done |].
      split; [done|]. rewrite Ht' . rewrite Ht in Htgt'. rewrite lookup_insert_eq in Htgt'.
      injection Htgt' as <-. cbn [rows unique_cols t1].
      rewrite upsert_rows_idem;
        [| apply updates_not_key | by apply staged_records_deduplicated].
      rewrite Ht. by rewrite insert_insert_eq.
Qed.

(** ** The contract of the merge *)

Lemma upsert_rows_applied kc upd cols src rs :
  (∀ c, c ∈ upd → c ∉ kc) →
  (∀ c, c ∈ cols → c ∈ kc ∨ c ∈ upd) →
  deduplicated kc src →
  applied kc cols src rs (upsert_rows kc upd src rs).
Proof.
  intros Hdisj Hcols Hd. split.
  - intros p Hp.
    destruct (settled_inv kc upd p (upsert_rows kc upd src rs)) as (e & He & Hk & Hu).
    { by apply upsert_rows_all_settled. }
    exists e. split_and!; [done..|].
    intros c [Hc|Hc]%Hcols; [|by apply Hu].
    apply (key_of_lookup kc); [|done..].
    destruct Hd as [Hd _]. by eapply Forall_forall in Hd.
  - apply filter_upsert_rows; [done|].
    intros p Hp. apply list_elem_of_fmap. by exists p.
Qed.

Lemma applied_nil kc cols rs : applied kc cols [] rs rs.
Proof. split; [by intros p ?%elem_of_nil | done]. Qed.

(** Under the unique index, every row found under a key of the batch
    holds the batch's values. *)
Lemma applied_unique kc cols batch before after p e :
  applied kc cols batch before after →
  NoDup (complete_keys kc after) →
  p ∈ batch → is_Some (key_of kc p) →
  e ∈ after → key_of kc e = key_of kc p →
  ∀ c, c ∈ cols → e !! c = p !! c.
Proof.
  intros [Ha _] Hn Hp Hk He Hke.
  destruct (Ha p Hp) as (e' & He' & Hke' & Hv).
  assert (e = e') as ->; [|done].
  apply (unique_row kc e e' after); [done..| by rewrite Hke | congruence].
Qed.

Lemma table_rows_insert name u rs (w w' : World) :
  tables w' = <[name := mkTable u rs]> (tables w) → table_rows name w' = rs.
Proof. unfold table_rows. intros ->. by rewrite lookup_insert_eq. Qed.

Lemma table_rows_lookup name t (w : World) :
  tables w !! name = Some t → table_rows name w = rows t.
Proof. unfold table_rows. by intros ->. Qed.

Lemma empty_target_no_rows df :
  columns df = TARGET_COLS → empty df = true → staged_records df = [].
Proof.
  intros Hc He. unfold staged_records. rewrite key_mask_target by done.
  unfold empty in He. rewrite Hc in He. destruct (data df) eqn:Hd; [|done].
  unfold staged, mask_rows, records. by rewrite Hd.
Qed.

Lemma upsert_matches_applied df w w' :
  columns df = TARGET_COLS →
  upsert_matches df w = (Ok (), w') →
  applied MATCH_KEY TARGET_COLS (staged_records df)
    (table_rows "atp.matches" w) (table_rows "atp.matches" w')
  ∧ ∀ name, name ≠ "atp.matches" → tables w' !! name = tables w !! name.
Proof.
  intros Hc H.
  destruct (upsert_matches_inv _ _ _ _ H)
    as [(_ & He & ->) | [(e & ? & _) | (_ & He & t & Htmp & Htgt & Hu & Hd & Ht)]]; [|done|].
  - rewrite empty_target_no_rows by done. split; [apply applied_nil | done].
  - split.
    + rewrite (table_rows_lookup _ _ _ Htgt), (table_rows_insert _ _ _ _ _ Ht).
      apply upsert_rows_applied;
        [apply updates_not_key | apply target_key_or_update
         | by apply staged_records_deduplicated].
    + intros name Hne. rewrite Ht. by rewrite lookup_insert_ne.
Qed.

(** The unique index of the match table survives the upsert. *)
Lemma upsert_matches_invariant df w t :
  tables w !! "tmp_tml" = None →
  tables w !! "atp.matches" = Some t →
  NoDup (complete_keys MATCH_KEY (rows t)) →
  ∃ t1, tables (upsert_matches df w).2 !! "tmp_tml" = None
      ∧ tables (upsert_matches df w).2 !! "atp.matches" = Some t1
      ∧ unique_cols t1 = unique_cols t
      ∧ NoDup (complete_keys MATCH_KEY (rows t1)).
Proof.
  intros Htmp Htgt Hn. destruct (upsert_matches df w) as [r w1] eqn:H.
  destruct (upsert_matches_inv _ _ _ _ H)
    as [(_ & He & ->) | [(e & ? & Ht) | (_ & He & t' & _ & Htgt' & Hu & Hd & Ht)]]; cbn [snd].
  - by exists t.
  - exists t. by rewrite Ht.
  - rewrite Htgt in Htgt'. injection Htgt' as <-.
    eexists. rewrite Ht. rewrite lookup_insert_ne by done. rewrite lookup_insert_eq.
    split_and!; [done..|]. cbn [rows].
    apply NoDup_upsert_rows; [apply updates_not_key | done].
Qed.

(** ** Sorting and duplicates *)

Lemma value_ltb_irrefl x : value_ltb x x = false.
Proof.
  destruct x as [s|z|x|t]; cbn; [|apply Z.ltb_irrefl|done|apply Z.ltb_irrefl].
  unfold String.ltb. destruct (String.compare s s) eqn:Hc; [done| |done].
  pose proof (String.compare_antisym s s) as Ha. rewrite Hc in Ha. done.
Qed.

Lemma value_ltb_asym x y : value_ltb x y = true → value_ltb y x = false.
Proof.
  destruct x as [s|z|x|t], y as [s'|z'|x'|t']; cbn; try done.
  - unfold String.ltb. rewrite (String.compare_antisym s s').
    by destruct (String.compare s' s).
  - intros ?%Z.ltb_lt. apply Z.ltb_ge. lia.
  - intros ?%Z.ltb_lt. apply Z.ltb_ge. unfold Timestamp in *. lia.
Qed.

Lemma cell_ltb_irrefl (x : cell) : cell_ltb x x = false.
Proof. destruct x; [apply value_ltb_irrefl | done]. Qed.

Lemma cell_ltb_asym (x y : cell) : cell_ltb x y = true → cell_ltb y x = false.
Proof. destruct x, y; cbn; try done. apply value_ltb_asym. Qed.

Lemma key_ltb_irrefl k : key_ltb k k = false.
Proof.
  induction k as [|x k IH]; [done|]. cbn.
  by rewrite cell_ltb_irrefl, IH, andb_false_r.
Qed.

Lemma key_ltb_asym k1 k2 : key_ltb k1 k2 = true → key_ltb k2 k1 = false.
Proof.
  revert k2. induction k1 as [|x k1 IH]; intros [|y k2]; cbn; try done.
  intros [Hlt|[Heq Hk]%andb_true_iff]%orb_true_iff.
  - rewrite (cell_ltb_asym _ _ Hlt). cbn.
    rewrite bool_decide_eq_false_2; [done|].
    intros ->. by rewrite cell_ltb_irrefl in Hlt.
  - apply bool_decide_eq_true in Heq as ->.
    by rewrite cell_ltb_irrefl, (IH _ Hk), andb_false_r.
Qed.

Section by_key.
Context {A : Type} (key : A → list cell).

#[local] Abbreviation key_sorted := (key_sorted key).

Lemma filter_insert_by k x l :
  filter (λ y, key y = k) (insert_by key x l)
  = if decide (key x = k) then x :: filter (λ y, key y = k) l
    else filter (λ y, key y = k) l.
Proof.
  induction l as [|y l IH]; cbn [insert_by].
  - rewrite filter_cons, filter_nil. by case_decide.
  - destruct (key_ltb (key y) (key x)) eqn:Hlt.
    + rewrite !(filter_cons _ y), IH.
      destruct (decide (key x = k)) as [Hx|Hx]; [|done].
      destruct (decide (key y = k)) as [Hy|Hy]; [|done].
      rewrite Hx, Hy, key_ltb_irrefl in Hlt. done.
    + rewrite (filter_cons _ x). by case_decide.
Qed.

Lemma filter_stable_sort k l :
  filter (λ y, key y = k) (stable_sort key l) = filter (λ y, key y = k) l.
Proof.
  unfold stable_sort. induction l as [|x l IH]; [done|]. cbn [foldr].
  rewrite filter_insert_by, filter_cons, IH. done.
Qed.

Lemma insert_by_Permutation x l : insert_by key x l ≡ₚ x :: l.
Proof.
  induction l as [|y l IH]; cbn [insert_by]; [done|].
  destruct (key_ltb (key y) (key x)); [|done].
  rewrite IH. apply Permutation_swap.
Qed.

Lemma stable_sort_Permutation l : stable_sort key l ≡ₚ l.
Proof.
  unfold stable_sort. induction l as [|x l IH]; [done|]. cbn [foldr].
  by rewrite insert_by_Permutation, IH.
Qed.

Lemma insert_by_sorted x l : key_sorted l → key_sorted (insert_by key x l).
Proof.
  unfold key_sorted. induction l as [|y l IH]; intros Hs; cbn [insert_by].
  - by repeat constructor.
  - destruct (key_ltb (key y) (key x)) eqn:Hlt.
    + apply Sorted_inv in Hs as [Hs Hhd]. constructor; [by apply IH|].
      destruct l as [|z l]; cbn [insert_by].
      * constructor. by apply key_ltb_asym.
      * destruct (key_ltb (key z) (key x)).
        -- constructor. by apply HdRel_inv in Hhd.
        -- constructor. by apply key_ltb_asym.
    + constructor; [done|]. by constructor.
Qed.

Lemma stable_sort_sorted l : key_sorted (stable_sort key l).
Proof.
  unfold stable_sort. induction l as [|x l IH]; cbn [foldr].
  - constructor.
  - by apply insert_by_sorted.
Qed.

Lemma filter_key_nil k l :
  k ∉ map key l → filter (λ y, key y = k) l = [].
Proof.
  intros Hn. induction l as [|x l IH]; [done|].
  rewrite filter_cons. cbn in Hn. apply not_elem_of_cons in Hn as [Hx Hl].
  rewrite decide_False by done. by apply IH.
Qed.

(** The last row of each key, and nothing else, survives [keep_last]. *)
Lemma filter_keep_last k l :
  filter (λ y, key y = k) (keep_last key l)
  = option_list (last (filter (λ y, key y = k) l)).
Proof.
  induction l as [|x l IH]; [done|]. cbn [keep_last].
  destruct (bool_decide (key x ∈ map key l)) eqn:Hin.
  - apply bool_decide_eq_true in Hin. rewrite IH, (filter_cons _ x).
    destruct (decide (key x = k)) as [Hx|Hx]; [|done].
    rewrite last_cons.
    destruct (last (filter (λ y, key y = k) l)) eqn:Hl; [done|].
    apply last_None in Hl.
    apply list_elem_of_In, in_map_iff in Hin as (y & Hy & Hyl).
    assert (y ∈ filter (λ y, key y = k) l) as Hf.
    { apply list_elem_of_filter. split; [congruence | by apply list_elem_of_In]. }
    rewrite Hl in Hf. by apply elem_of_nil in Hf.
  - apply bool_decide_eq_false in Hin. rewrite !(filter_cons _ x), IH.
    destruct (decide (key x = k)) as [Hx|Hx]; [|done].
    rewrite filter_key_nil by congruence. done.
Qed.

Lemma keep_last_sublist l : sublist (keep_last key l) l.
Proof.
  induction l as [|x l IH]; [done|]. cbn [keep_last].
  case_bool_decide; [by apply sublist_cons | by apply sublist_skip].
Qed.

Lemma keep_last_keys l : map key (keep_last key l) ⊆ map key l
  ∧ map key l ⊆ map key (keep_last key l).
Proof.
  split.
  - intros k Hk. eapply elem_of_sublist; [done|]. apply fmap_sublist, keep_last_sublist.
  - induction l as [|x l IH]; [done|]. cbn [keep_last].
    intros k [->|Hk]%elem_of_cons.
    + case_bool_decide; [by apply IH | by left].
    + case_bool_decide; [by apply IH | right; by apply IH].
Qed.

Lemma keep_last_NoDup l : NoDup (map key (keep_last key l)).
Proof.
  induction l as [|x l IH]; [constructor|]. cbn [keep_last].
  case_bool_decide as Hin; [done|]. cbn. constructor; [|done].
  intros Hk. apply Hin. by apply keep_last_keys.
Qed.

(** The first row of each key not seen before survives [keep_first]. *)
Lemma filter_keep_first k seen l :
  filter (λ y, key y = k) (keep_first key seen l)
  = if decide (k ∈ seen) then []
    else option_list (head (filter (λ y, key y = k) l)).
Proof.
  revert seen. induction l as [|x l IH]; intros seen; cbn [keep_first].
  - by case_decide.
  - case_bool_decide as Hin.
    + rewrite IH, (filter_cons _ x).
      destruct (decide (k ∈ seen)) as [Hk|Hk]; [done|].
      rewrite decide_False by congruence. done.
    + rewrite !(filter_cons _ x), IH.
      destruct (decide (key x = k)) as [Hx|Hx].
      * subst k. rewrite decide_True by (by left). by rewrite decide_False.
      * destruct (decide (k ∈ seen)) as [Hk|Hk].
        -- rewrite decide_True; [done | by right].
        -- rewrite decide_False; [done|].
           intros [?|?]%elem_of_cons; congruence.
Qed.

Lemma keep_first_sublist seen l : sublist (keep_first key seen l) l.
Proof.
  revert seen. induction l as [|x l IH]; intros seen; [done|]. cbn [keep_first].
  case_bool_decide; [by apply sublist_cons | by apply sublist_skip].
Qed.

Lemma keep_first_NoDup seen l :
  NoDup (map key (keep_first key seen l))
  ∧ ∀ k, k ∈ map key (keep_first key seen l) → k ∉ seen.
Proof.
  revert seen. induction l as [|x l IH]; intros seen; cbn [keep_first].
  - split; [constructor | by intros k ?%elem_of_nil].
  - case_bool_decide as Hin; [apply IH|].
    destruct (IH (key x :: seen)) as [IH1 IH2]. cbn. split.
    + constructor; [|done]. intros Hk. apply (IH2 _ Hk). by left.
    + intros k [->|Hk]%elem_of_cons; [done|].
      intros Hs. apply (IH2 _ Hk). by right.
Qed.
End by_key.

(** ** Deduplication in the loaders *)

Lemma sort_values_rankings out :
  columns out = RANKING_COLS →
  sort_values out RANKING_KEY = Ok (mkDF RANKING_COLS (stable_sort ranking_key (data out))).
Proof. intros Hc. unfold sort_values. by rewrite Hc. Qed.

Lemma drop_duplicates_rankings out :
  columns out = RANKING_COLS →
  drop_duplicates out RANKING_KEY KeepLast
  = Ok (mkDF RANKING_COLS (keep_last ranking_key (data out))).
Proof. intros Hc. unfold drop_duplicates. by rewrite Hc. Qed.

Lemma dedupe_rankings_eq out :
  columns out = RANKING_COLS →
  dedupe_rankings out
  = Ok (mkDF RANKING_COLS (keep_last ranking_key (stable_sort ranking_key (data out)))).
Proof.
  intros Hc. unfold dedupe_rankings. rewrite sort_values_rankings by done.
  cbn [mbind result_bind]. by rewrite drop_duplicates_rankings.
Qed.

Lemma last_filter_stable_sort {A} (key : A → list cell) k l :
  last (filter (λ y, key y = k) (stable_sort key l)) = last (filter (λ y, key y = k) l).
Proof. by rewrite filter_stable_sort. Qed.

(** Two rows under one key: the sort leaves them in arrival order and the
    second survives. *)
Lemma dedupe_pair {A} (key : A → list cell) a b :
  key a = key b → keep_last key (stable_sort key [a; b]) = [b].
Proof.
  intros Hk. cbn. rewrite Hk, key_ltb_irrefl. cbn.
  rewrite Hk. rewrite bool_decide_eq_true_2 by (by left).
  by rewrite bool_decide_eq_false_2 by (by intros ?%elem_of_nil).
Qed.

Lemma clean_players_ref_eq out :
  columns out = PLAYERS_REF_COLS →
  clean_players_ref out
  = Ok (mkDF PLAYERS_REF_COLS
          (keep_first players_ref_key []
             (List.filter (λ r, str_nonempty (cell_at r 0))
                (List.filter (λ r, bool_decide (is_Some (cell_at r 0))) (data out))))).
Proof.
  intros Hc. unfold clean_players_ref, getitem. cbn [columns mask_rows data]. rewrite Hc.
  replace (col_index PLAYERS_REF_COLS "player_id") with (Some 0) by done.
  cbn [mbind result_bind columns mask_rows data].
  unfold notna. rewrite !map_map, !boolean_index_map.
  unfold drop_duplicates, mask_rows. cbn [columns data]. rewrite Hc, ?boolean_index_map. done.
Qed.

(** The key of a reference row as a record is its first cell. *)
Lemma players_ref_key_of (r : list cell) :
  key_of PLAYERS_REF_KEY (row_of PLAYERS_REF_COLS r) = (λ v, [v]) <$> cell_at r 0.
Proof.
  unfold key_of, PLAYERS_REF_KEY. cbn [mapM].
  rewrite (row_of_lookup PLAYERS_REF_COLS r "player_id" 0) by done.
  by destruct (cell_at r 0).
Qed.

Lemma complete_keys_cons kc (p : row) ps :
  complete_keys kc (p :: ps)
  = match key_of kc p with
    | Some k => k :: complete_keys kc ps
    | None => complete_keys kc ps
    end.
Proof. done. Qed.

Lemma players_ref_deduplicated rs :
  Forall (λ r, is_Some (cell_at r 0)) rs →
  NoDup (map players_ref_key rs) →
  deduplicated PLAYERS_REF_KEY (records PLAYERS_REF_COLS rs).
Proof.
  intros Hs Hn. split.
  - unfold records. apply Forall_forall. intros p Hp.
    apply list_elem_of_In, in_map_iff in Hp as (r & <- & Hr).
    rewrite players_ref_key_of. apply fmap_is_Some.
    eapply Forall_forall in Hs; [done | by apply list_elem_of_In].
  - unfold records. induction rs as [|r rs IH]; [constructor|].
    apply Forall_cons in Hs as [[v Hv] Hs].
    cbn [map] in Hn. apply NoDup_cons in Hn as [Hr Hn].
    cbn [map]. rewrite complete_keys_cons, players_ref_key_of, Hv. cbn [fmap option_fmap option_map].
    constructor; [|by apply IH].
    intros Hin. apply Hr. apply list_elem_of_omap in Hin as (p & Hp & Hk).
    apply list_elem_of_In, in_map_iff in Hp as (r' & <- & Hr').
    rewrite players_ref_key_of in Hk. apply list_elem_of_In, in_map_iff.
    exists r'. split; [|done]. unfold players_ref_key, row_key. cbn [map].
    destruct (cell_at r' 0); cbn in Hk; [|done]. rewrite Hv. congruence.
Qed.

(** ** The players reference loader *)

Lemma bind_Ok {A B} (m : result A) (k : A → result B) b :
  m ≫= k = Ok b → ∃ a, m = Ok a ∧ k a = Ok b.
Proof. destruct m as [a|e]; [eauto | done]. Qed.

Ltac bind_inv H :=
  repeat (let a := fresh "a" in let Ha := fresh "Ha" in
          apply bind_Ok in H as (a & Ha & H)).

Lemma run_stage_merge_as (ts : relations) tmp tgt cols kc upd rs :
  tmp ≠ tgt →
  ∀ ts' sent,
  run [CREATE_TEMP_AS tmp tgt; COPY tmp cols rs; INSERT_ON_CONFLICT tgt tmp cols kc upd] ts
    = (Some ts', sent) →
  ∃ t, ts !! tgt = Some t ∧ unique_cols t = Some kc
       ∧ NoDup (complete_keys kc (records cols rs))
       ∧ commit sent ts' !! tgt
         = Some (mkTable (unique_cols t) (upsert_rows kc upd (records cols rs) (rows t))).
Proof.
  intros Hne ts' sent. cbn [run exec].
  destruct (ts !! tmp) as [?|] eqn:Htmp; [done|].
  destruct (ts !! tgt) as [t|] eqn:Htgt; [|done].
  rewrite lookup_insert_eq. cbn [mbind option_bind]. unfold copy_rows. cbn [rows unique_cols app unique_ok].
  cbn [mbind option_bind].
  rewrite insert_insert_eq, lookup_insert_eq, lookup_insert_ne, Htgt by done.
  cbn [mbind option_bind]. unfold insert_on_conflict. cbn [rows unique_cols].
  destruct (decide (unique_cols t = Some kc)) as [Hu|]; [|done].
  rewrite project_records.
  destruct (bool_decide (NoDup (complete_keys kc (records cols rs)))) eqn:Hd; [|done].
  cbn [mbind option_bind]. intros [= <- <-]. exists t. split_and!; try done.
  - by apply bool_decide_eq_true in Hd.
  - unfold commit. cbn. by rewrite lookup_insert_eq.
Qed.

Lemma players_ref_updates_not_key :
  Forall (λ c, c ∉ PLAYERS_REF_KEY) PLAYERS_REF_UPDATES.
Proof. eapply bool_decide_unpack. by vm_compute. Qed.

Lemma players_ref_key_or_update :
  Forall (λ c, c ∈ PLAYERS_REF_KEY ∨ c ∈ PLAYERS_REF_UPDATES) PLAYERS_REF_COLS.
Proof. eapply bool_decide_unpack. by vm_compute. Qed.

Section players_ref.
Context {pd : Pandas}.

Lemma players_ref_frame_columns f out :
  players_ref_frame f = Ok out → columns out = PLAYERS_REF_COLS.
Proof.
  unfold players_ref_frame. intros Hf. apply bind_Ok in Hf as (df & _ & Hf).
  destruct (forallb (has_col df) NEED); [|done].
  bind_inv Hf. cbn in Hf. by injection Hf as <-.
Qed.

Lemma create_players_ref w :
  ∃ w1, begin [CREATE_TABLE_IF_NOT_EXISTS "atp.players_ref" PLAYERS_REF_KEY] w = (Ok (), w1)
        ∧ table_rows "atp.players_ref" w1 = table_rows "atp.players_ref" w.
Proof.
  unfold begin. cbn [run exec]. unfold table_rows.
  destruct (tables w !! "atp.players_ref") as [t|] eqn:Ht; cbn [tables].
  - eexists. split; [done|]. cbn [tables commit omap list_omap dropped_at_commit foldr].
    by rewrite Ht.
  - eexists. split; [done|]. cbn [tables commit omap list_omap dropped_at_commit foldr].
    by rewrite lookup_insert_eq.
Qed.

Lemma clean_players_ref_keys out out' :
  columns out = PLAYERS_REF_COLS →
  clean_players_ref out = Ok out' →
  columns out' = PLAYERS_REF_COLS
  ∧ deduplicated PLAYERS_REF_KEY (records PLAYERS_REF_COLS (data out')).
Proof.
  intros Hc. rewrite clean_players_ref_eq by done. intros [= <-]. split; [done|].
  cbn [data]. apply players_ref_deduplicated.
  - apply Forall_forall. intros r Hr.
    eapply elem_of_sublist in Hr; [|apply keep_first_sublist].
    apply list_elem_of_In, filter_In in Hr as [Hr _].
    apply filter_In in Hr as [_ Hr]. by apply bool_decide_eq_true in Hr.
  - apply keep_first_NoDup.
Qed.

Lemma load_players_ref_inv f w r w' :
  load_players_ref f w = (r, w') →
  (∃ e, r = Raise e
      ∧ table_rows "atp.players_ref" w' = table_rows "atp.players_ref" w)
  ∨ (r = Ok ()
      ∧ applied PLAYERS_REF_KEY PLAYERS_REF_COLS (players_ref_records f)
          (table_rows "atp.players_ref" w) (table_rows "atp.players_ref" w')).
Proof.
  unfold load_players_ref, players_ref_records.
  destruct (players_ref_frame f) as [out0|e] eqn:Hf;
    [|intros ?; simplify_eq; left; eauto].
  destruct (create_players_ref w) as (w1 & -> & Hw1).
  cbn [mbind result_bind].
  destruct (clean_players_ref out0) as [out|e] eqn:Hc;
    [|intros ?; simplify_eq; left; eauto].
  destruct (clean_players_ref_keys out0 out) as [Hcols Hd];
    [by eapply players_ref_frame_columns | done |].
  destruct (begin _ w1) as [[[]|e] w2] eqn:Hb; intros ?; simplify_eq.
  - right. split; [done|].
    apply begin_ok in Hb as (ts' & sent & Hrun & Ht & _).
    apply run_stage_merge_as in Hrun as (t & Htgt & Hu & _ & Hrows); [|done].
    rewrite <- Hw1. rewrite (table_rows_lookup _ _ _ Htgt).
    unfold table_rows. cbn [print tables]. rewrite Ht, Hrows. cbn [rows].
    rewrite Hcols. apply upsert_rows_applied; [| |done].
    + apply Forall_forall, players_ref_updates_not_key.
    + apply Forall_forall, players_ref_key_or_update.
  - left. eexists. split; [done|]. apply begin_raise in Hb.
    unfold table_rows. by rewrite Hb.
Qed.
End players_ref.

(** ** The frames that [read_file] returns *)

Lemma Ok_inj {A} (a b : A) : Ok a = Ok b → a = b.
Proof. by intros [= ->]. Qed.

Lemma reindex_columns df cols : columns (reindex df cols) = cols.
Proof. done. Qed.

Section read_file_shape.
Context {pd : Pandas}.

Lemma coerce_columns df out : coerce df = Ok out → columns out = TARGET_COLS.
Proof.
  unfold coerce. intros Hc.
  apply bind_Ok in Hc as (d & _ & Hc). apply bind_Ok in Hc as (df' & _ & Hc).
  apply Ok_inj in Hc. rewrite <- Hc. apply reindex_columns.
Qed.

Lemma read_file_columns f df : read_file f = Ok df → columns df = TARGET_COLS.
Proof.
  unfold read_file. intros Hr.
  apply bind_Ok in Hr as (df0 & _ & Hr). apply bind_Ok in Hr as (df1 & _ & Hr).
  by eapply coerce_columns.
Qed.

(** One file through the loop of [main]: the relations it leaves are
    those of the upsert of its frame. *)
Lemma load_files_one f w :
  match read_file f with
  | Ok df =>
      raises (load_files [f] 0 w).1 = raises (upsert_matches df w).1
      ∧ tables (load_files [f] 0 w).2 = tables (upsert_matches df w).2
  | Raise e => load_files [f] 0 w = (Raise e, w)
  end.
Proof.
  cbn [load_files]. destruct (read_file f) as [df|e]; [|done].
  destruct (upsert_matches_tables df (print (Line "[tml] rows" [len df]) w) w) as [Hr Ht];
    [done|].
  destruct (upsert_matches df (print (Line "[tml] rows" [len df]) w)) as [[[]|e] w1];
    cbn [fst snd] in *; by rewrite <- Hr, <- Ht.
Qed.
End read_file_shape.

(** * The claims *)

(** C10. Applying an empty batch is a no-op: for a frame without rows (or
    without columns) both [copy_df] and [upsert_matches] return at once
    and hand the world back as it was: no statement sent, no relation
    changed, nothing printed. *)
Theorem empty_batch_is_no_op (df : DataFrame) (full_table : string) (w : World) :
  (data df = [] → empty df = true)
  ∧ (empty df = true →
     copy_df df full_table w = (Ok (), w) ∧ upsert_matches df w = (Ok (), w)).
Proof.
  split.
  - unfold empty. intros ->. by destruct (columns df).
  - intros He. unfold copy_df, upsert_matches. by rewrite He.
Qed.

Lemma empty_batch_is_no_op_witness :
  copy_df (mkDF TARGET_COLS []) "atp.matches" sample_world = (Ok (), sample_world)
  ∧ upsert_matches (mkDF TARGET_COLS []) sample_world = (Ok (), sample_world).
Proof.
  apply (proj2 (empty_batch_is_no_op (mkDF TARGET_COLS []) "atp.matches" sample_world)).
  reflexivity.
Defined.








(** The scenario of the rankings file, end to end: of two lines for one
    date and player the second is copied, and the count of duplicates
    printed is one. *)
Example rankings_scenario :
  let w := mkWorld {[ "atp.rankings" := mkTable None [] ]} [] [] in
  let w' := (load_rankings (pd := reference_parsers) [Some rankings_file] None w).2 in
  copied (sent_by w w') = [ranking_b]
  ∧ stdout w' = [Line "[rankings] rows, deduped" [1; 1]].
Proof. by vm_compute. Qed.

(** C4 (as amended). In the rankings loader the rows are sorted on
    (ranking_date, player_id) by a stable sort and the last row of each key
    in that sequence is kept, which is the row of the key that arrived
    last; two rows A then B under one key leave B alone, the count of
    dropped duplicates being 1.  In the players reference loader the first
    row of each identifier is kept. *)
Theorem dedupe_last_in_rankings_first_in_players_ref :
  (∀ out, columns out = RANKING_COLS →
     ∃ sorted out',
       sort_values out RANKING_KEY = Ok sorted
       ∧ drop_duplicates sorted RANKING_KEY KeepLast = Ok out'
       ∧ dedupe_rankings out = Ok out'
       ∧ key_sorted ranking_key (data sorted)
       ∧ data sorted ≡ₚ data out
       ∧ NoDup (map ranking_key (data out'))
       ∧ ∀ k,
           filter (λ r, ranking_key r = k) (data out')
           = option_list (last (filter (λ r, ranking_key r = k) (data sorted)))
           ∧ filter (λ r, ranking_key r = k) (data sorted)
             = filter (λ r, ranking_key r = k) (data out))
  ∧ (∀ a b, ranking_key a = ranking_key b →
       dedupe_rankings (mkDF RANKING_COLS [a; b]) = Ok (mkDF RANKING_COLS [b])
       ∧ len (mkDF RANKING_COLS [a; b]) - len (mkDF RANKING_COLS [b]) = 1)
  ∧ (∀ out, columns out = PLAYERS_REF_COLS →
       ∃ out',
         clean_players_ref out = Ok out'
         ∧ NoDup (map players_ref_key (data out'))
         ∧ ∀ k,
             filter (λ r, players_ref_key r = k) (data out')
             = option_list
                 (head (filter (λ r, players_ref_key r = k) (with_identifier (data out))))).
Proof.
  split_and!.
  - intros out Hc.
    exists (mkDF RANKING_COLS (stable_sort ranking_key (data out))).
    exists (mkDF RANKING_COLS
              (keep_last ranking_key (stable_sort ranking_key (data out)))).
    split_and!.
    + by apply sort_values_rankings.
    + by apply drop_duplicates_rankings.
    + by apply dedupe_rankings_eq.
    + apply stable_sort_sorted.
    + apply stable_sort_Permutation.
    + apply keep_last_NoDup.
    + intros k. split; [apply filter_keep_last | apply filter_stable_sort].
  - intros a b Hk. split; [|done].
    rewrite dedupe_rankings_eq by done. cbn [data]. by rewrite dedupe_pair.
  - intros out Hc. eexists. split; [by apply clean_players_ref_eq|]. cbn [data].
    split; [apply keep_first_NoDup|].
    intros k. rewrite filter_keep_first. rewrite decide_False; [done|].
    by intros ?%elem_of_nil.
Qed.

Lemma dedupe_last_in_rankings_first_in_players_ref_witness :
  ranking_key ranking_a = ranking_key ranking_b
  ∧ dedupe_rankings (mkDF RANKING_COLS [ranking_a; ranking_b])
    = Ok (mkDF RANKING_COLS [ranking_b])
  ∧ len (mkDF RANKING_COLS [ranking_a; ranking_b]) - len (mkDF RANKING_COLS [ranking_b]) = 1.
Proof.
  split; [reflexivity|].
  apply (proj1 (proj2 dedupe_last_in_rankings_first_in_players_ref) ranking_a ranking_b).
  reflexivity.
Defined.

(** C4 (as stated) fails on the players reference loader: of two rows
    under one identifier, arrived as A then B, it keeps A. *)
Lemma players_ref_keeps_first_arrival :
  players_ref_key player_a = players_ref_key player_b
  ∧ player_a ≠ player_b
  ∧ clean_players_ref (mkDF PLAYERS_REF_COLS [player_a; player_b])
    = Ok (mkDF PLAYERS_REF_COLS [player_a]).
Proof. split_and!; [done | by intros [=] | by vm_compute]. Qed.

(** ** Cells of a frame under column assignment *)

Lemma col_index_lt cols c i : col_index cols c = Some i → i < length cols.
Proof. intros [Hi _]%col_index_Some. by eapply lookup_lt_Some. Qed.

Lemma col_index_inj cols c c' i :
  col_index cols c = Some i → col_index cols c' = Some i → c = c'.
Proof. intros [H1 _]%col_index_Some [H2 _]%col_index_Some. congruence. Qed.

Lemma col_index_is_Some cols c : c ∈ cols ↔ is_Some (col_index cols c).
Proof.
  unfold col_index. rewrite fmap_is_Some. split.
  - intros Hc. destruct (list_find_elem_of (λ x, x = c) cols c) as [x Hx]; [done..|].
    by exists x.
  - intros [[i x] Hf]. apply list_find_Some in Hf as (Hl & -> & _).
    by eapply list_elem_of_lookup_2.
Qed.

Lemma col_index_None cols c : c ∉ cols ↔ col_index cols c = None.
Proof. rewrite col_index_is_Some. by rewrite eq_None_not_Some. Qed.

Lemma col_index_app_l cols c c' i :
  col_index cols c = Some i → col_index (cols ++ [c']) c = Some i.
Proof.
  unfold col_index. intros ([i' x] & Hf & ->)%fmap_Some.
  apply fmap_Some. exists (i', x). split; [|done].
  apply list_find_app_Some. by left.
Qed.

Lemma cell_at_pad n (r : list cell) i : i < n → cell_at (pad n r) i = cell_at r i.
Proof.
  intros Hi. unfold cell_at, pad. destruct (decide (i < length r)) as [Hl|Hl].
  - by rewrite lookup_resize by lia.
  - rewrite lookup_resize_new by lia. by rewrite (lookup_ge_None_2 r) by lia.
Qed.

Lemma cell_at_insert (r : list cell) i i' x :
  i < length r →
  cell_at (<[i := x]> r) i' = if decide (i' = i) then x else cell_at r i'.
Proof.
  intros Hi. unfold cell_at. case_decide as He.
  - subst. by rewrite list_lookup_insert_eq.
  - by rewrite list_lookup_insert_ne.
Qed.

Lemma cell_at_app_l (r : list cell) x i : i < length r → cell_at (r ++ [x]) i = cell_at r i.
Proof. intros Hi. unfold cell_at. by rewrite lookup_app_l. Qed.

Lemma cell_at_map {A} (f : A → cell) (l : list A) j :
  cell_at (map f l) j = from_option f None (l !! j).
Proof.
  unfold cell_at. change (map f l) with (f <$> l). rewrite list_lookup_fmap.
  by destruct (l !! j).
Qed.

Lemma len_setitem df c s : len (setitem df c s) = len df.
Proof. unfold len, setitem. destruct (col_index _ _); cbn [data]; apply length_imap. Qed.

Lemma columns_setitem_in df c s :
  c ∈ columns df → columns (setitem df c s) = columns df.
Proof.
  intros [i Hi]%col_index_is_Some. unfold setitem. by rewrite Hi.
Qed.

(** After [df[c] = s], column [c] holds [s] and the other columns of the
    frame hold what they held. *)
Lemma cell_of_setitem df c s j c' v :
  cell_of df j c' = Some v →
  cell_of (setitem df c s) j c' = Some (if decide (c' = c) then cell_at s j else v).
Proof.
  unfold cell_of. intros Hv.
  destruct (data df !! j) as [r|] eqn:Hr; [|done]. cbn [mbind option_bind] in Hv.
  destruct (col_index (columns df) c') as [i'|] eqn:Hi'; [|done].
  cbn [mbind option_bind] in Hv. apply (inj Some) in Hv as <-.
  pose proof (col_index_lt _ _ _ Hi') as Hlt.
  unfold setitem. destruct (col_index (columns df) c) as [i|] eqn:Hi; cbn [data columns].
  - rewrite list_lookup_imap, Hr, Hi'. cbn [fmap option_fmap option_map mbind option_bind].
    f_equal. rewrite cell_at_insert.
    + unfold width. rewrite cell_at_pad by done.
      destruct (decide (c' = c)) as [->|Hne].
      * rewrite Hi in Hi'. apply (inj Some) in Hi' as ->. by rewrite decide_True.
      * rewrite decide_False; [done|]. intros ->. apply Hne.
        by eapply col_index_inj.
    + unfold pad, width. rewrite length_resize. by eapply col_index_lt.
  - rewrite list_lookup_imap, Hr, (col_index_app_l _ _ _ _ Hi').
    cbn [fmap option_fmap option_map mbind option_bind]. f_equal.
    rewrite cell_at_app_l by (unfold pad, width; by rewrite length_resize).
    unfold width. rewrite cell_at_pad by done.
    rewrite decide_False; [done|]. intros ->. congruence.
Qed.

Lemma getitem_Ok df c s :
  getitem df c = Ok s →
  ∃ i, col_index (columns df) c = Some i ∧ s = map (λ r, cell_at r i) (data df).
Proof.
  unfold getitem. destruct (col_index _ _) as [i|]; [|done].
  intros Hs%Ok_inj. eauto.
Qed.

Lemma getitem_cell df c s j r :
  getitem df c = Ok s → data df !! j = Some r →
  cell_of df j c = Some (cell_at s j).
Proof.
  intros (i & Hi & ->)%getitem_Ok Hr. unfold cell_of.
  rewrite Hr, Hi. cbn. by rewrite cell_at_map, Hr.
Qed.

Lemma getitem_has_col df c : has_col df c = true → ∃ s, getitem df c = Ok s.
Proof.
  unfold has_col, getitem. intros Hc%bool_decide_eq_true.
  apply col_index_is_Some in Hc as [i ->]. eauto.
Qed.

Lemma cell_of_row df j c v : cell_of df j c = Some v → is_Some (data df !! j).
Proof. unfold cell_of. by destruct (data df !! j). Qed.

Lemma cell_of_has_col df j c v : cell_of df j c = Some v → has_col df c = true.
Proof.
  unfold cell_of, has_col. destruct (data df !! j); [|done]. cbn.
  destruct (col_index (columns df) c) eqn:Hi; [|done]. intros _.
  apply bool_decide_eq_true, col_index_is_Some. by rewrite Hi.
Qed.

(** ** Numeric coercion *)

Lemma col_index_app_new cols c : c ∉ cols → col_index (cols ++ [c]) c = Some (length cols).
Proof.
  intros Hc. unfold col_index. apply fmap_Some. exists (length cols, c). split; [|done].
  apply list_find_app_Some. right. split_and!.
  - done.
  - apply list_find_None. apply Forall_forall. by intros x Hx ->.
  - rewrite Nat.sub_diag. apply list_find_Some.
    split_and!; [done..|]. intros j y Hj ?. lia.
Qed.

Lemma col_index_app_inv cols c c' i :
  col_index (cols ++ [c]) c' = Some i → c' ∈ cols ∨ (c' = c ∧ c' ∉ cols).
Proof.
  intros Hi. destruct (decide (c' ∈ cols)) as [?|Hn]; [by left|right].
  split; [|done].
  assert (c' ∈ cols ++ [c]) as Hin by (apply col_index_is_Some; by rewrite Hi).
  apply elem_of_app in Hin as [?|Hin]; [done|]. by apply list_elem_of_singleton in Hin.
Qed.

(** A cell of the frame after [df[c] = s] is a cell of [s] under [c], or
    the cell the frame had. *)
Lemma cell_of_setitem_inv df c s j c' v1 :
  cell_of (setitem df c s) j c' = Some v1 →
  (c' = c ∧ v1 = cell_at s j) ∨ (c' ≠ c ∧ cell_of df j c' = Some v1).
Proof.
  intros H1.
  assert (is_Some (data df !! j)) as [r Hr].
  { apply cell_of_row in H1. apply lookup_lt_is_Some in H1. apply lookup_lt_is_Some.
    pose proof (len_setitem df c s) as Hl. unfold len in Hl. lia. }
  destruct (decide (c' ∈ columns df)) as [Hin|Hin].
  - apply col_index_is_Some in Hin as [i' Hi'].
    assert (cell_of df j c' = Some (cell_at r i')) as H0.
    { unfold cell_of. by rewrite Hr, Hi'. }
    pose proof (cell_of_setitem df c s j c' _ H0) as H2. rewrite H1 in H2.
    apply (inj Some) in H2. destruct (decide (c' = c)) as [->|Hne]; [by left|right].
    by rewrite H0, H2.
  - left. unfold cell_of, setitem in H1.
    destruct (col_index (columns df) c) as [i|] eqn:Hi; cbn [data columns] in H1.
    + exfalso. rewrite list_lookup_imap, Hr in H1. cbn in H1.
      apply col_index_None in Hin. by rewrite Hin in H1.
    + rewrite list_lookup_imap, Hr in H1. cbn [fmap option_fmap option_map mbind option_bind] in H1.
      destruct (col_index (columns df ++ [c]) c') as [i'|] eqn:Hi'; [|done].
      apply col_index_app_inv in Hi' as Hc. destruct Hc as [?|[-> _]]; [done|].
      rewrite col_index_app_new in Hi' by done. apply (inj Some) in Hi' as <-.
      cbn in H1. apply (inj Some) in H1 as <-. split; [done|].
      unfold cell_at at 1. rewrite lookup_app_r by (unfold pad, width; by rewrite length_resize).
      unfold pad, width. rewrite length_resize, Nat.sub_diag. done.
Qed.

Lemma astype_Int64_ok xs :
  Forall (λ x, ∀ t, x ≠ Some (Fractional t)) xs → astype_Int64 xs = Ok (map int_cell xs).
Proof.
  induction 1 as [|x xs Hx _ IH]; [done|]. cbn [astype_Int64 map].
  destruct x as [[z|t]|]; [| by destruct (Hx t) |]; by rewrite IH.
Qed.

(** The cast raises as soon as the series holds a number that is not
    whole. *)
Lemma astype_Int64_raise xs t :
  Some (Fractional t) ∈ xs → astype_Int64 xs = Raise TypeError.
Proof.
  induction xs as [|x xs IH]; [by intros ?%elem_of_nil|].
  intros [<-|Hin]%elem_of_cons; [done|]. cbn [astype_Int64].
  destruct x as [[z|t']|]; [|done|]; by rewrite IH.
Qed.

Section numeric.
Context {pd : Pandas}.

Lemma castable_spec v : castable v = true ↔ ∀ t, to_numeric v ≠ Some (Fractional t).
Proof.
  unfold castable. destruct (to_numeric v) as [[z|t]|]; split; try done.
  intros Hn. by destruct (Hn t).
Qed.

Lemma castable_int_cell x : castable (int_cell x) = true.
Proof. by destruct x as [[z|t]|]. Qed.

Lemma castable_cell_at_int xs j : castable (cell_at (map int_cell xs) j) = true.
Proof. rewrite cell_at_map. destruct (xs !! j); [apply castable_int_cell | done]. Qed.

Lemma int_cell_idem v : int_cell (to_numeric (int_cell (to_numeric v))) = int_cell (to_numeric v).
Proof. by destruct (to_numeric v) as [[z|t]|]. Qed.

Lemma to_Int64_ok s :
  forallb castable s = true → to_Int64 s = Ok (map (λ v, int_cell (to_numeric v)) s).
Proof.
  intros Hs. unfold to_Int64. rewrite astype_Int64_ok; [by rewrite map_map|].
  apply Forall_forall. intros x Hx. apply list_elem_of_In, in_map_iff in Hx as (v & <- & Hv).
  apply castable_spec. by eapply forallb_forall in Hs.
Qed.

(** The cells of a column are castable when the cells of the frame under
    it are. *)
Lemma column_castable df c s :
  getitem df c = Ok s →
  (∀ j v, cell_of df j c = Some v → castable v = true) →
  forallb castable s = true.
Proof.
  intros Hs Hc. apply forallb_forall. intros v Hv.
  apply list_elem_of_In, list_elem_of_lookup in Hv as [j Hj].
  destruct (getitem_Ok _ _ _ Hs) as (i & Hi & ->).
  change (map ?f ?l) with (f <$> l) in Hj. rewrite list_lookup_fmap in Hj.
  destruct (data df !! j) as [r|] eqn:Hr; [|done]. apply (inj Some) in Hj as <-.
  apply (Hc j). unfold cell_of. by rewrite Hr, Hi.
Qed.

Lemma all_castable_cells df cols :
  all_castable df cols = true →
  ∀ j c v, c ∈ cols → cell_of df j c = Some v → castable v = true.
Proof.
  unfold all_castable. intros Ha j c v Hc Hv.
  eapply forallb_forall in Ha; [|by apply list_elem_of_In].
  destruct (getitem_has_col df c) as [s Hs]; [by eapply cell_of_has_col|].
  rewrite Hs in Ha. destruct (cell_of_row _ _ _ _ Hv) as [r Hr].
  pose proof (getitem_cell _ _ _ _ _ Hs Hr) as Hcell. rewrite Hv in Hcell.
  apply (inj Some) in Hcell as ->. eapply forallb_forall in Ha; [done|].
  destruct (getitem_Ok _ _ _ Hs) as (i & Hi & ->).
  rewrite cell_at_map, Hr. cbn. apply in_map_iff. exists r. split; [done|].
  apply list_elem_of_In. by eapply list_elem_of_lookup_2.
Qed.

(** One cast column: the call returns, the rows stay, the column holds
    the cast cells and the others hold what they held. *)
Lemma coerce_col_ok df c :
  has_col df c = true →
  (∀ j v, cell_of df j c = Some v → castable v = true) →
  ∃ out, coerce_col df c = Ok out
    ∧ len out = len df
    ∧ columns out = columns df
    ∧ (∀ j c' v, cell_of df j c' = Some v →
         cell_of out j c' = Some (if decide (c' = c) then int_cell (to_numeric v) else v))
    ∧ (∀ j c' v1, cell_of out j c' = Some v1 →
         castable v1 = true ∨ cell_of df j c' = Some v1).
Proof.
  intros Hc Hcast. destruct (getitem_has_col df c Hc) as [s Hs].
  unfold coerce_col. rewrite Hs. cbn [mbind result_bind].
  rewrite to_Int64_ok by (by eapply column_castable). cbn [mbind result_bind mret result_ret].
  eexists. split; [done|]. split_and!.
  - apply len_setitem.
  - apply columns_setitem_in. by apply bool_decide_eq_true in Hc.
  - intros j c' v Hv. rewrite (cell_of_setitem _ _ _ _ _ _ Hv).
    destruct (decide (c' = c)) as [->|]; [|done]. f_equal.
    destruct (cell_of_row _ _ _ _ Hv) as [r Hr].
    pose proof (getitem_cell _ _ _ _ _ Hs Hr) as Hcell. rewrite Hv in Hcell.
    apply (inj Some) in Hcell as ->.
    rewrite cell_at_map. unfold cell_at. by destruct (s !! j).
  - intros j c' v1 [[-> ->]|[_ ?]]%cell_of_setitem_inv; [left|by right].
    rewrite <- map_map. apply castable_cell_at_int.
Qed.

Section loop.
Context (absent : DataFrame → string → DataFrame).
Hypothesis absent_len : ∀ df c, len (absent df c) = len df.
Hypothesis absent_keeps : ∀ df c j c' v,
  has_col df c = false →
  cell_of df j c' = Some v → cell_of (absent df c) j c' = Some v.
Hypothesis absent_adds : ∀ df c j c' v1,
  cell_of (absent df c) j c' = Some v1 →
  castable v1 = true ∨ cell_of df j c' = Some v1.

Lemma coerce_cols_with_ok cols df :
  (∀ j c v, c ∈ cols → cell_of df j c = Some v → castable v = true) →
  ∃ out, coerce_cols_with absent df cols = Ok out
    ∧ len out = len df
    ∧ ∀ j c v, cell_of df j c = Some v →
        cell_of out j c
        = Some (if decide (c ∈ cols) then int_cell (to_numeric v) else v).
Proof using absent_len absent_keeps absent_adds.
  revert df. induction cols as [|c cols IH]; intros df Hcast.
  - exists df. split_and!; [done..|]. intros j c v Hv. rewrite Hv.
    rewrite decide_False; [done | apply not_elem_of_nil].
  - cbn [coerce_cols_with]. destruct (has_col df c) eqn:Hc.
    + destruct (coerce_col_ok df c Hc) as (df1 & -> & Hl1 & _ & Hfwd & Hinv).
      { intros j v. apply Hcast. by left. }
      cbn [mbind result_bind].
      destruct (IH df1) as (out & -> & Hl & Hout).
      { intros j c' v1 Hc' [?|Hv]%Hinv; [done|]. eapply Hcast; [|done]. by right. }
      exists out. split_and!; [done | congruence |].
      intros j c' v Hv. rewrite (Hout _ _ _ (Hfwd _ _ _ Hv)). f_equal.
      destruct (decide (c' = c)) as [->|Hne].
      * rewrite (decide_True (P := c ∈ c :: cols)) by (by left).
        case_decide; [apply int_cell_idem | done].
      * destruct (decide (c' ∈ cols)) as [Hin|Hin].
        -- rewrite decide_True; [done | by right].
        -- rewrite decide_False; [done|]. by intros [?|?]%elem_of_cons.
    + cbn [mbind result_bind].
      destruct (IH (absent df c)) as (out & -> & Hl & Hout).
      { intros j c' v1 Hc' [?|Hv]%absent_adds; [done|]. eapply Hcast; [|done]. by right. }
      exists out. split_and!; [done | by rewrite Hl, absent_len |].
      intros j c' v Hv. rewrite (Hout _ _ _ (absent_keeps _ c _ _ _ Hc Hv)). f_equal.
      assert (c' ≠ c) as Hne.
      { intros ->. apply cell_of_has_col in Hv. congruence. }
      destruct (decide (c' ∈ cols)) as [Hin|Hin].
      -- rewrite decide_True; [done | by right].
      -- rewrite decide_False; [done|]. by intros [?|?]%elem_of_cons.
Qed.
End loop.

Lemma _coerce_numeric_cols_loop df cols :
  _coerce_numeric_cols df cols = coerce_cols_with setitem_na df cols.
Proof.
  revert df. induction cols as [|c cols IH]; intros df; [done|].
  cbn [_coerce_numeric_cols coerce_cols_with].
  destruct (if has_col df c then coerce_col df c else Ok (setitem_na df c)); [apply IH|done].
Qed.

Lemma coerce_ints_loop df cols :
  coerce_ints df cols = coerce_cols_with (λ df _, df) df cols.
Proof.
  revert df. induction cols as [|c cols IH]; intros df; [done|].
  cbn [coerce_ints coerce_cols_with].
  destruct (if has_col df c then coerce_col df c else Ok df); [apply IH|done].
Qed.

Lemma coerce_ints_columns df cols out :
  coerce_ints df cols = Ok out → columns out = columns df.
Proof.
  revert df. induction cols as [|c cols IH]; intros df; cbn [coerce_ints].
  - by intros <-%Ok_inj.
  - intros (df1 & H1 & H2)%bind_Ok. rewrite (IH _ H2).
    destruct (has_col df c) eqn:Hc; [|by apply Ok_inj in H1 as <-].
    unfold coerce_col in H1. apply bind_Ok in H1 as (s & _ & H1).
    apply bind_Ok in H1 as (s' & _ & H1). apply Ok_inj in H1 as <-.
    apply columns_setitem_in. by apply bool_decide_eq_true in Hc.
Qed.
End numeric.



(** On the sample: the malformed duration is missing, the other is an
    integer, and both rows are there with their other cells. *)
Example coerce_ints_sample :
  coerce_ints (pd := reference_parsers) sample_raw INTS
  = Ok (mkDF ["tourney_id"; "minutes"; "score"]
          [ [Some (VStr "2024-0339"); None; Some (VStr "6-4 6-4")];
            [Some (VStr "2024-0339"); Some (VInt 95); Some (VStr "7-6 6-3")] ]).
Proof. by vm_compute. Qed.

(** A duration that is a number but not a whole one is not a malformed
    cell: the cast to [Int64] raises on it. *)
Example coerce_ints_fraction :
  all_castable (pd := reference_parsers) sample_fraction INTS = false
  ∧ coerce_ints (pd := reference_parsers) sample_fraction INTS = Raise TypeError
  ∧ _coerce_numeric_cols (pd := reference_parsers) sample_fraction MATCH_INT_COLS
    = Raise TypeError.
Proof. by vm_compute. Qed.

(** ** Dates *)

Section dates.
Context {pd : Pandas}.

Lemma failing_cons v col :
  failing (v :: col) = if compact_fails v then v :: failing col else failing col.
Proof. done. Qed.

(** The cells filled from the second parse are read in order: the cell
    at position [i] takes the result whose rank is the number of
    failures before [i]. *)
Lemma fill_lookup col d2 i v :
  col !! i = Some v →
  fill (map to_datetime_compact col) d2 !! i
  = Some match to_datetime_compact v with
         | Some t => Some t
         | None => mjoin (d2 !! length (failing (take i col)))
         end.
Proof.
  revert d2 i. induction col as [|v0 col IH]; intros d2 i Hi; [done|].
  destruct i as [|i]; cbn [map fill take].
  - apply (inj Some) in Hi as ->.
    destruct (to_datetime_compact v) as [t|] eqn:Hv; [done|].
    by destruct d2.
  - change ((v0 :: col) !! S i) with (col !! i) in Hi.
    rewrite failing_cons. unfold compact_fails.
    destruct (to_datetime_compact v0) as [t|] eqn:Hv0.
    + rewrite bool_decide_eq_false_2 by done. exact (IH d2 i Hi).
    + rewrite bool_decide_eq_true_2 by done. destruct d2 as [|x d2].
      * change ((None :: ?l) !! S i) with (l !! i). rewrite (IH [] i Hi).
        by rewrite !lookup_nil.
      * change ((x :: ?l) !! S i) with (l !! i). exact (IH d2 i Hi).
Qed.

Lemma coerce_dates_mask col :
  boolean_index col
    (map (λ d : option Timestamp, bool_decide (d = None)) (map to_datetime_compact col))
  = failing col.
Proof. rewrite map_map. apply boolean_index_map. Qed.

Lemma existsb_mask col :
  existsb id
    (map (λ d : option Timestamp, bool_decide (d = None)) (map to_datetime_compact col))
  = false →
  ∀ v, v ∈ col → is_Some (to_datetime_compact v).
Proof.
  induction col as [|v0 col IH]; [by intros _ v ?%elem_of_nil|]. cbn.
  intros [H0 Hr]%orb_false_iff v [->|Hv]%elem_of_cons; [|by apply IH].
  apply bool_decide_eq_false in H0. by destruct (to_datetime_compact v0).
Qed.

Lemma coerce_dates_lookup col i v :
  col !! i = Some v →
  coerce_dates col !! i
  = Some (date_cell
            match to_datetime_compact v with
            | Some t => Some t
            | None => mjoin (parse_dates_flex (failing col) !! length (failing (take i col)))
            end).
Proof.
  intros Hi. unfold coerce_dates.
  destruct (existsb id _) eqn:He.
  - rewrite coerce_dates_mask. change (map date_cell ?l) with (date_cell <$> l).
    rewrite list_lookup_fmap, (fill_lookup _ _ _ _ Hi). done.
  - destruct (existsb_mask col He v) as [t Ht]; [by eapply list_elem_of_lookup_2|].
    rewrite Ht. rewrite map_map. change (map ?f ?l) with (f <$> l).
    by rewrite list_lookup_fmap, Hi; cbn; rewrite Ht.
Qed.

(** The rank of a failing cell among the failing cells. *)
Lemma failing_rank {A} (g : cell → A) col i v :
  col !! i = Some v → compact_fails v = true →
  map g (failing col) !! length (failing (take i col)) = Some (g v).
Proof.
  intros Hi Hv.
  assert (failing col = failing (take i col) ++ v :: failing (drop (S i) col)) as ->.
  { rewrite <- (take_drop_middle col i v Hi) at 1.
    unfold failing. rewrite List.filter_app. cbn [List.filter]. by rewrite Hv. }
  rewrite map_app. rewrite lookup_app_r by (by rewrite length_map).
  by rewrite length_map, Nat.sub_diag.
Qed.

Lemma to_date_lookup col i v :
  col !! i = Some v → to_date col !! i = Some (date_cell (to_datetime_compact v)).
Proof.
  intros Hi. unfold to_date. change (map ?f ?l) with (f <$> l).
  by rewrite list_lookup_fmap, Hi.
Qed.
End dates.

(** C7 (as amended). In the TML reader every value of the date column is
    first parsed in the compact format; a value the compact format fails
    on takes the result of the general parse of the series of such
    values, and is missing only if that fails as well.  When the general
    parse works value by value, the result for a value is the compact
    parse, else the general one, else missing.  The Sackmann loaders
    parse the compact format alone. *)
Theorem tml_dates_fall_back_to_general_parse {pd : Pandas} :
  (∀ col i v, col !! i = Some v →
     coerce_dates col !! i
     = Some (date_cell
               match to_datetime_compact v with
               | Some t => Some t
               | None => mjoin (parse_dates_flex (failing col) !! length (failing (take i col)))
               end))
  ∧ (∀ g, (∀ s, parse_dates_flex s = map g s) →
       ∀ col i v, col !! i = Some v →
         coerce_dates col !! i
         = Some (date_cell
                   match to_datetime_compact v with
                   | Some t => Some t
                   | None => g v
                   end))
  ∧ (∀ col i v, col !! i = Some v →
       to_date col !! i = Some (date_cell (to_datetime_compact v))).
Proof.
  split_and!.
  - apply coerce_dates_lookup.
  - intros g Hg col i v Hi. rewrite (coerce_dates_lookup _ _ _ Hi).
    destruct (to_datetime_compact v) as [t|] eqn:Hv; [done|].
    rewrite Hg, (failing_rank g col i v Hi); [done|].
    unfold compact_fails. by rewrite Hv.
  - apply to_date_lookup.
Qed.

Lemma tml_dates_fall_back_to_general_parse_witness :
  coerce_dates (pd := reference_parsers) sample_dates !! 1
  = Some (date_cell
            match to_datetime_compact (pd := reference_parsers) (Some (VStr "2024-01-16")) with
            | Some t => Some t
            | None => ref_parse_date_flex (Some (VStr "2024-01-16"))
            end).
Proof.
  apply (proj1 (proj2 (tml_dates_fall_back_to_general_parse (pd := reference_parsers)))
           ref_parse_date_flex (λ s, eq_refl) sample_dates 1 (Some (VStr "2024-01-16"))).
  reflexivity.
Defined.

(** On the sample column: the compact date, the ISO date through the
    fallback, and a missing cell for what is no date. *)
Example coerce_dates_sample :
  coerce_dates (pd := reference_parsers) sample_dates
  = [Some (VDate 19737); Some (VDate 19738); None].
Proof. by vm_compute. Qed.

(** C7 (as stated) fails on the Sackmann match loader: a date in the ISO
    form, which the general parse reads, is set to missing without being
    given to it. *)
Lemma sackmann_dates_have_no_fallback :
  parse_dates_flex (Pandas := reference_parsers) [Some (VStr "2024-01-15")] = [Some 19737%Z]
  ∧ to_date (pd := reference_parsers) [Some (VStr "2024-01-15")] = [None]
  ∧ (matches_frame (pd := reference_parsers) sackmann_file_iso
       ≫= λ out, getitem out "tourney_date") = Ok [None].
Proof. by vm_compute. Qed.

(** ** Column resolution *)

Lemma bind_Ok_l {A B} (a : A) (k : A → result B) : Ok a ≫= k = k a.
Proof. done. Qed.

Lemma bind_Raise_l {A B} e (k : A → result B) : Raise e ≫= k = Raise e.
Proof. done. Qed.

Lemma pick_None df cands : pick df cands = None ↔ ¬ resolved (columns df) cands.
Proof.
  unfold pick, resolved. rewrite fmap_None, list_find_None, Forall_forall.
  split.
  - intros Hn (c & Hc & Hin). by apply (Hn c).
  - intros Hn c Hc Hin. apply Hn. eauto.
Qed.

Lemma resolve_players_cases df :
  resolve_players df = Ok (pick_columns df) ∨ resolve_players df = Raise ValueError.
Proof. unfold resolve_players. case_bool_decide; auto. Qed.

Lemma truly_missing_nil p :
  truly_missing p = []
  ↔ is_Some (col_player_id p) ∧ is_Some (col_first p) ∧ is_Some (col_last p)
    ∧ is_Some (col_hand p) ∧ is_Some (col_birth p) ∧ is_Some (col_country p).
Proof.
  destruct p as [[a|] [b|] [c|] [d|] [e|] [f|] g]; unfold truly_missing; cbn;
    (split; [intros ?; first [done | split_and!; by eauto] |
             intros (?&?&?&?&?&?); first [done | by exfalso; eapply is_Some_None]]).
Qed.

Lemma resolve_players_raise df :
  resolve_players df = Raise ValueError
  ↔ ∃ cands, cands ∈ REQUIRED_PLAYER_FIELDS ∧ ¬ resolved (columns df) cands.
Proof.
  unfold resolve_players. rewrite (bool_decide_ext _ _ (truly_missing_nil _)).
  unfold pick_columns, REQUIRED_PLAYER_FIELDS.
  cbn [col_player_id col_first col_last col_hand col_birth col_country].
  split.
  - case_bool_decide as Hm; [done|]. intros _.
    destruct (pick df ["player_id"]) eqn:H1; [|eexists; split; [|by apply pick_None]];
      [|by repeat constructor].
    destruct (pick df ["first_name"; "name_first"]) eqn:H2;
      [|eexists; split; [|by apply pick_None]]; [|by repeat constructor].
    destruct (pick df ["last_name"; "name_last"]) eqn:H3;
      [|eexists; split; [|by apply pick_None]]; [|by repeat constructor].
    destruct (pick df ["hand"]) eqn:H4;
      [|eexists; split; [|by apply pick_None]]; [|by repeat constructor].
    destruct (pick df ["birth_date"; "dob"]) eqn:H5;
      [|eexists; split; [|by apply pick_None]]; [|by repeat constructor].
    destruct (pick df ["country_code"; "ioc"]) eqn:H6;
      [|eexists; split; [|by apply pick_None]]; [|by repeat constructor].
    destruct Hm. split_and!; by eexists.
  - intros (cands & Hin & Hn%pick_None).
    rewrite bool_decide_eq_false_2; [done|].
    intros (H1 & H2 & H3 & H4 & H5 & H6).
    repeat (apply elem_of_cons in Hin as [->|Hin]);
      [rewrite Hn in *; by eapply is_Some_None.. | by apply elem_of_nil in Hin].
Qed.

Section players.
Context {pd : Pandas}.

Lemma load_players_raise f w df :
  read_players f = Ok df →
  resolve_players df = Raise ValueError →
  load_players (Some f) w = (Raise ValueError, w).
Proof.
  intros Hr He. unfold load_players, players_frame.
  by rewrite Hr, bind_Ok_l, He, bind_Raise_l.
Qed.
End players.

(** ** The header stage of the TML reader *)

Lemma name_map_lookup cols k :
  (k ∈ map canon cols → is_Some (name_map cols !! k))
  ∧ (∀ c, name_map cols !! k = Some c → c ∈ cols ∧ canon c = k).
Proof.
  unfold name_map.
  assert (∀ (m : gmap string string),
            (∀ c, m !! k = Some c → canon c = k) →
            (k ∈ map canon cols ∨ is_Some (m !! k) →
               is_Some (foldl (λ m c, <[canon c := c]> m) m cols !! k))
            ∧ (∀ c, foldl (λ m c, <[canon c := c]> m) m cols !! k = Some c →
                 (c ∈ cols ∨ m !! k = Some c) ∧ canon c = k)) as Hgen.
  { induction cols as [|c0 cols IH]; intros m Hm; cbn [foldl map].
    - split; [by intros [?%elem_of_nil|?] | intros c Hc; split; [by right | by apply Hm]].
    - destruct (IH (<[canon c0 := c0]> m)) as [IH1 IH2].
      { intros c. destruct (decide (canon c0 = k)) as [Heq|Hne].
        - rewrite <- Heq at 1. rewrite lookup_insert_eq. by intros [= <-].
        - rewrite lookup_insert_ne by done. apply Hm. }
      split.
      + intros Hk. apply IH1.
        destruct (decide (canon c0 = k)) as [Heq|Hne].
        * right. rewrite <- Heq. by rewrite lookup_insert_eq.
        * rewrite lookup_insert_ne by done.
          destruct Hk as [[?|Hin]%elem_of_cons|Hs]; [congruence | by left | by right].
      + intros c Hc. destruct (IH2 c Hc) as [[Hin|Hl] Hk]; split; try done.
        * left. by right.
        * destruct (decide (canon c0 = k)) as [Heq|Hne].
          -- rewrite <- Heq in Hl at 1. rewrite lookup_insert_eq in Hl.
             injection Hl as <-. left. by left.
          -- rewrite lookup_insert_ne in Hl by done. by right. }
  destruct (Hgen ∅) as [H1 H2]; [by intros c; rewrite lookup_empty|].
  split; [intros; apply H1; by left|].
  intros c Hc. destruct (H2 c Hc) as [[?|Hl] ?]; [done|].
  by rewrite lookup_empty in Hl.
Qed.

Lemma name_map_Some cols k c : name_map cols !! k = Some c → canon c = k.
Proof. intros Hc. by destruct (proj2 (name_map_lookup cols k) c Hc). Qed.

Lemma name_map_None cols k : name_map cols !! k = None ↔ k ∉ map canon cols.
Proof.
  destruct (name_map_lookup cols k) as [H1 H2]. split.
  - intros Hn Hin. destruct (H1 Hin) as [c Hc]. congruence.
  - intros Hn. destruct (name_map cols !! k) as [c|] eqn:Hc; [|done].
    destruct (H2 c eq_refl) as [Hin <-]. exfalso. apply Hn.
    apply list_elem_of_In, in_map, list_elem_of_In, Hin.
Qed.

Lemma missing_keys_nil cols :
  missing_keys (name_map cols) = [] ↔ ∀ c, c ∈ TML_COLS → canon c ∈ map canon cols.
Proof.
  unfold missing_keys, expect_keys. split.
  - intros Hm c Hc. destruct (decide (canon c ∈ map canon cols)) as [?|Hn]; [done|].
    exfalso. assert (In (canon c) []) as []. rewrite <- Hm.
    apply filter_In. split.
    + apply in_map, list_elem_of_In, Hc.
    + apply bool_decide_eq_true. by apply name_map_None.
  - intros Hall. destruct (List.filter _ _) as [|k l] eqn:Hf; [done|].
    assert (In k (k :: l)) as Hk by (by left). rewrite <- Hf in Hk.
    apply filter_In in Hk as [Hk Hn]. apply bool_decide_eq_true, name_map_None in Hn.
    apply in_map_iff in Hk as (c & <- & Hc). destruct Hn. apply Hall.
    by apply list_elem_of_In.
Qed.

(** The renaming sends a column to an expected column of the same
    canonical name. *)
Lemma rename_map_canon norm expect src tgt :
  (∀ k c, norm !! k = Some c → canon c = k) →
  (∀ k c, expect !! k = Some c → canon c = k) →
  rename_map norm expect !! src = Some tgt → canon tgt = canon src.
Proof.
  intros Hn He. unfold rename_map.
  assert (∀ (m : gmap string string),
            (∀ s t, m !! s = Some t → canon t = canon s) →
            ∀ keys s t,
              foldl (λ m k, match norm !! k, expect !! k with
                            | Some src, Some tgt => <[src := tgt]> m
                            | _, _ => m
                            end) m keys !! s = Some t →
              canon t = canon s) as Hgen.
  { intros m Hm keys. revert m Hm. induction keys as [|k keys IH]; intros m Hm s t; cbn [foldl].
    - apply Hm.
    - apply IH. destruct (norm !! k) as [src'|] eqn:Hs; [|done].
      destruct (expect !! k) as [tgt'|] eqn:Ht; [|done].
      intros s' t'. destruct (decide (src' = s')) as [<-|Hne].
      + rewrite lookup_insert_eq. intros [= <-].
        by rewrite (Hn _ _ Hs), (He _ _ Ht).
      + rewrite lookup_insert_ne by done. apply Hm. }
  eapply Hgen. by intros s t; rewrite lookup_empty.
Qed.

Lemma rename_canon cols :
  map canon
    (map (λ c, default c (rename_map (name_map cols) (name_map TML_COLS) !! c)) cols)
  = map canon cols.
Proof.
  rewrite map_map. apply map_ext. intros c.
  destruct (rename_map _ _ !! c) as [t|] eqn:Ht; [|done]. cbn.
  eapply rename_map_canon; [| |done]; intros k c'; apply name_map_Some.
Qed.

Lemma missing_keys_canon cols cols' :
  map canon cols' = map canon cols →
  missing_keys (name_map cols') = missing_keys (name_map cols).
Proof.
  intros Hc. unfold missing_keys. apply filter_ext. intros k.
  apply bool_decide_ext. by rewrite !name_map_None, Hc.
Qed.

(** The renaming step never rescues a file: the header stage fails
    exactly when some expected canonical name is missing from the header
    as read. *)
Lemma normalize_eq df :
  normalize df
  = if bool_decide (missing_keys (name_map (columns df)) = [])
    then Ok (reindex df (List.filter (has_col df) TML_COLS))
    else Raise ValueError.
Proof.
  unfold normalize.
  destruct (bool_decide (missing_keys (name_map (columns df)) = [])) eqn:Hm.
  - rewrite Hm. reflexivity.
  - destruct (bool_decide (rename_map _ _ = ∅)).
    + rewrite Hm. reflexivity.
    + cbn [columns rename]. rewrite (missing_keys_canon (columns df)) by apply rename_canon.
      rewrite Hm. reflexivity.
Qed.

Lemma missing_keys_In cols k :
  In k (missing_keys (name_map cols))
  ↔ (∃ c, canon c = k ∧ In c TML_COLS) ∧ k ∉ map canon cols.
Proof.
  unfold missing_keys, expect_keys.
  by rewrite filter_In, in_map_iff, bool_decide_eq_true, name_map_None.
Qed.

Lemma missing_keys_cons cols k l :
  missing_keys (name_map cols) = k :: l →
  ∃ c, c ∈ TML_COLS ∧ canon c ∉ map canon cols.
Proof.
  intros Hk. destruct (proj1 (missing_keys_In cols k)) as [(c & <- & Hc) Hn].
  { rewrite Hk. by left. }
  exists c. split; [by apply list_elem_of_In | done].
Qed.

Lemma normalize_raise df :
  normalize df = Raise ValueError
  ↔ ∃ c, c ∈ TML_COLS ∧ canon c ∉ map canon (columns df).
Proof.
  rewrite normalize_eq.
  destruct (missing_keys (name_map (columns df))) as [|k l] eqn:Hk.
  - rewrite bool_decide_eq_true_2 by reflexivity. split; [intros [=]|].
    intros (c & Hc & Hn). exfalso. apply Hn. by apply (proj1 (missing_keys_nil _) Hk).
  - rewrite bool_decide_eq_false_2 by (intros [=]). split; [intros _|reflexivity].
    by eapply missing_keys_cons.
Qed.

Lemma normalize_cases df :
  normalize df = Raise ValueError ∨ ∃ out, normalize df = Ok out.
Proof.
  rewrite normalize_eq.
  destruct (bool_decide (missing_keys (name_map (columns df)) = [])); [right|left].
  - eexists. reflexivity.
  - reflexivity.
Qed.

Section tml_loader.
Context {pd : Pandas}.

Lemma load_files_raise f files total w df :
  read_csv f = Ok df →
  normalize df = Raise ValueError →
  load_files (f :: files) total w = (Raise ValueError, w).
Proof.
  intros Hr Hn.
  assert (read_file f = Raise ValueError) as Hf.
  { unfold read_file. by rewrite Hr, bind_Ok_l, Hn, bind_Raise_l. }
  cbn [load_files]. by rewrite Hf.
Qed.
End tml_loader.

(** C9. A players file in which some required field is resolved by none
    of its accepted names, and a TML file in which the canonical name of
    some expected column is not among those of the header, make the
    loader raise ValueError and leave the world as it was: no statement
    is sent, no relation changed.  Conversely, when every required column
    is resolved the column resolution returns. *)
Theorem unresolved_required_column_fails_the_file {pd : Pandas} :
  (∀ df,
     (resolve_players df = Raise ValueError
      ↔ ∃ cands, cands ∈ REQUIRED_PLAYER_FIELDS ∧ ¬ resolved (columns df) cands)
     ∧ ((∀ cands, cands ∈ REQUIRED_PLAYER_FIELDS → resolved (columns df) cands) →
        resolve_players df = Ok (pick_columns df)))
  ∧ (∀ f df w,
       read_players f = Ok df →
       (∃ cands, cands ∈ REQUIRED_PLAYER_FIELDS ∧ ¬ resolved (columns df) cands) →
       load_players (Some f) w = (Raise ValueError, w))
  ∧ (∀ df,
       (normalize df = Raise ValueError
        ↔ ∃ c, c ∈ TML_COLS ∧ canon c ∉ map canon (columns df))
       ∧ ((∀ c, c ∈ TML_COLS → canon c ∈ map canon (columns df)) →
          ∃ out, normalize df = Ok out))
  ∧ (∀ f files total df w,
       read_csv f = Ok df →
       (∃ c, c ∈ TML_COLS ∧ canon c ∉ map canon (columns df)) →
       load_files (f :: files) total w = (Raise ValueError, w)).
Proof.
  split_and!.
  - intros df. split; [apply resolve_players_raise|].
    intros Hall. destruct (resolve_players_cases df) as [?|Hr]; [done|].
    apply resolve_players_raise in Hr as (cands & Hin & Hn). by destruct Hn; apply Hall.
  - intros f df w Hr Hn. eapply load_players_raise; [done|].
    by apply resolve_players_raise.
  - intros df. split; [apply normalize_raise|].
    intros Hall. destruct (normalize_cases df) as [Hr|?]; [|done].
    apply normalize_raise in Hr as (c & Hc & Hn). by destruct Hn; apply Hall.
  - intros f files total df w Hr Hn. eapply load_files_raise; [done|].
    by apply normalize_raise.
Qed.

Lemma unresolved_required_column_fails_the_file_witness :
  load_players (pd := reference_parsers) (Some players_file_without_hand) sample_world
  = (Raise ValueError, sample_world)
  ∧ load_files (pd := reference_parsers) [tml_file_short] 0 sample_world
    = (Raise ValueError, sample_world).
Proof.
  split.
  - apply (proj1 (proj2 (unresolved_required_column_fails_the_file (pd := reference_parsers)))
             players_file_without_hand
             (mkDF ["player_id"; "name_first"; "name_last"; "dob"; "ioc"]
                [[Some (VStr "100644"); Some (VStr "Alexander"); Some (VStr "Zverev");
                  Some (VStr "19970420"); Some (VStr "GER")]])
             sample_world).
    + vm_compute. reflexivity.
    + exists ["hand"]. split; [by repeat constructor|].
      apply pick_None. vm_compute. reflexivity.
  - apply (proj2 (proj2 (proj2
             (unresolved_required_column_fails_the_file (pd := reference_parsers))))
             tml_file_short [] 0
             (mkDF ["Tourney ID"; "Tourney Date"; "Match Num"]
                [[Some (VStr "2024-0339"); Some (VStr "20240115"); Some (VStr "1")]])
             sample_world).
    + vm_compute. reflexivity.
    + exists "tourney_name". split; [by repeat constructor|].
      eapply bool_decide_unpack. vm_compute. exact I.
Defined.

(** A header that spells the expected names differently passes the header
    stage through the canonical names. *)
Example canon_names :
  canon " Tourney--ID " = "tourney_id" ∧ canon "w_1stIn" = "w_1stin"
  ∧ canon "Winner Rank Points" = "winner_rank_points".
Proof. by vm_compute. Qed.

(** ** The statements a loader sends *)

Lemma run_sent body ts r sent : run body ts = (r, sent) → ∃ rest, body = sent ++ rest.
Proof.
  revert ts r sent. induction body as [|s body IH]; intros ts r sent; cbn [run].
  - intros [= _ <-]. by exists [].
  - destruct (exec s ts) as [ts'|].
    + destruct (run body ts') as [r' sent'] eqn:Hr. intros [= _ <-].
      destruct (IH _ _ _ Hr) as [rest ->]. by exists rest.
    + intros [= _ <-]. by exists body.
Qed.

Lemma run_Some body ts ts' sent : run body ts = (Some ts', sent) → sent = body.
Proof.
  revert ts ts' sent. induction body as [|s body IH]; intros ts ts' sent; cbn [run].
  - by intros [= _ <-].
  - destruct (exec s ts) as [ts1|]; [|done].
    destruct (run body ts1) as [r' sent'] eqn:Hr. intros [= -> <-].
    by rewrite (IH _ _ _ Hr).
Qed.

Lemma copied_app a b : copied (a ++ b) = copied a ++ copied b.
Proof.
  induction a as [|s a IH]; [done|]. destruct s; cbn [copied app]; try done.
  by rewrite IH, app_assoc.
Qed.

Lemma sent_by_app (w w' : World) sent : issued w' = issued w ++ sent → sent_by w w' = sent.
Proof. unfold sent_by. intros ->. by rewrite drop_app_length. Qed.

Lemma sent_by_same (w w' : World) : issued w' = issued w → sent_by w w' = [].
Proof. intros H. apply sent_by_app. by rewrite app_nil_r. Qed.

Lemma sent_by_from (w0 w w' : World) : issued w0 = issued w → sent_by w0 w' = sent_by w w'.
Proof. unfold sent_by. by intros ->. Qed.

(** A transaction adds to the log a prefix of its body: the whole body
    when it commits. *)
Lemma begin_issued body w :
  ∃ sent rest, body = sent ++ rest
    ∧ issued (begin body w).2 = issued w ++ sent
    ∧ stdout (begin body w).2 = stdout w
    ∧ ((begin body w).1 = Ok () → rest = []).
Proof.
  unfold begin. destruct (run body (tables w)) as [[ts'|] sent] eqn:Hr.
  - apply run_Some in Hr as ->. exists body, []. by rewrite app_nil_r.
  - destruct (run_sent _ _ _ _ Hr) as [rest ->]. by exists sent, rest.
Qed.

Lemma begin_stdout body w : stdout (begin body w).2 = stdout w.
Proof. by destruct (begin_issued body w) as (? & ? & _ & _ & -> & _). Qed.

Lemma begin_copied body w r :
  r ∈ copied (sent_by w (begin body w).2) → r ∈ copied body.
Proof.
  destruct (begin_issued body w) as (sent & rest & -> & Hi & _ & _).
  rewrite (sent_by_app _ _ _ Hi), copied_app. intros ?. apply elem_of_app. by left.
Qed.

Lemma begin_copied_ok body w :
  (begin body w).1 = Ok () → copied (sent_by w (begin body w).2) = copied body.
Proof.
  destruct (begin_issued body w) as (sent & rest & -> & Hi & _ & Hok).
  intros ->%Hok. by rewrite (sent_by_app _ _ _ Hi), app_nil_r.
Qed.

(** The bulk copy sends rows of its frame only, and all of them when it
    returns. *)
Lemma copy_df_copied df full_table w r :
  r ∈ copied (sent_by w (copy_df df full_table w).2) → r ∈ data df.
Proof.
  unfold copy_df. destruct (empty df).
  - cbn [snd]. rewrite sent_by_same by done. by intros ?%elem_of_nil.
  - intros Hr%begin_copied. cbn [copied] in Hr. by rewrite app_nil_r in Hr.
Qed.

Lemma mask_sum_map {A} (f : A → bool) (l : list A) :
  mask_sum (map f l) = length (List.filter f l).
Proof.
  unfold mask_sum. induction l as [|x l IH]; [done|]. cbn [map List.filter].
  destruct (f x) eqn:Hx.
  - rewrite filter_cons_True by done. cbn [length]. by rewrite IH.
  - rewrite filter_cons_False by done. done.
Qed.

(** What the match upsert sends and prints. *)
Lemma upsert_matches_sent df w :
  columns df = TARGET_COLS →
  let kept := List.filter match_key_present (data df) in
  let dropped := len df - length kept in
  let w' := (upsert_matches df w).2 in
  (∀ r, r ∈ copied (sent_by w w') → r ∈ kept)
  ∧ ((upsert_matches df w).1 = Ok () →
     copied (sent_by w w') = kept
     ∧ stdout w'
       = stdout w
         ++ (if decide (dropped = 0) then []
             else [Line "[tml] dropping rows with NULL match_num or missing tourney keys"
                     [dropped]])).
Proof.
  intros Hc. cbn zeta. unfold upsert_matches. destruct (empty df) eqn:He.
  - cbn [fst snd]. rewrite sent_by_same by done.
    assert (data df = []) as Hd.
    { unfold empty in He. rewrite Hc in He. by destruct (data df). }
    unfold len. rewrite Hd. cbn. split; [done|]. intros _. by rewrite app_nil_r.
  - rewrite (key_mask_target df Hc).
    rewrite mask_sum_map.
    pose proof (staged_target df _ Hc (key_mask_target df Hc)) as Hs.
    set (dropped := len df - length (List.filter match_key_present (data df))) in *.
    set (w0 := if decide (dropped = 0) then w else print _ w).
    assert (issued w0 = issued w) as Hi by (unfold w0; by case_decide).
    assert (stdout w0 = stdout w
              ++ (if decide (dropped = 0) then []
                  else [Line "[tml] dropping rows with NULL match_num or missing tourney keys"
                          [dropped]])) as Ho.
    { unfold w0. case_decide; [by rewrite app_nil_r | done]. }
    rewrite <- (sent_by_from w0 w) by done.
    split.
    + intros r Hr%begin_copied. cbn [copied] in Hr. rewrite app_nil_r in Hr.
      by rewrite Hs in Hr.
    + intros Hok. rewrite (begin_copied_ok _ _ Hok). cbn [copied].
      rewrite app_nil_r, Hs. split; [done|]. by rewrite begin_stdout.
Qed.

(** ** The rankings up to the bulk copy *)

Lemma reindex_rankings out :
  columns out = RANKING_COLS →
  data (reindex out RANKING_COLS)
  = map (λ r, [cell_at r 0; cell_at r 1; cell_at r 2; cell_at r 3]) (data out).
Proof. intros Hc. unfold reindex. rewrite Hc. reflexivity. Qed.

Lemma dropna_rankings out :
  columns out = RANKING_COLS →
  dropna out RANKING_KEY
  = Ok (mkDF RANKING_COLS
          (List.filter
             (λ r, bool_decide (is_Some (cell_at r 0)) && bool_decide (is_Some (cell_at r 2)))
             (data out))).
Proof.
  intros Hc. unfold dropna. rewrite Hc.
  replace (col_indices RANKING_COLS RANKING_KEY) with (Ok (A := list nat) [0; 2]) by done.
  rewrite bind_Ok_l. unfold mret, result_ret. do 2 f_equal.
  apply List.filter_ext. intros r. unfold row_key. cbn [map forallb].
  by rewrite andb_true_r.
Qed.

Section rankings.
Context {pd : Pandas}.

Lemma read_all_rankings_issued files w :
  issued (read_all_rankings files w).2 = issued w
  ∧ tables (read_all_rankings files w).2 = tables w.
Proof.
  revert w. induction files as [|[f|] files IH]; intros w; cbn [read_all_rankings].
  - done.
  - destruct (read_rankings f); [|done]. specialize (IH w).
    by destruct (read_all_rankings files w) as [[frames|e] w'].
  - apply (IH (print _ w)).
Qed.

Lemma since_columns min_date out out' :
  since min_date out = Ok out' → columns out' = columns out.
Proof.
  unfold since. destruct min_date as [[|a m]|]; try by intros [= ->].
  destruct (parse_dates_flex _) as [|[t|] l]; try done.
  intros H. apply bind_Ok in H as (d & _ & H). apply Ok_inj in H. by rewrite <- H.
Qed.

Lemma coerce_col_columns df c out : coerce_col df c = Ok out → columns out = columns df.
Proof.
  unfold coerce_col. intros H.
  apply bind_Ok in H as (s & Hs & H). apply bind_Ok in H as (s' & _ & H).
  apply Ok_inj in H. rewrite <- H. apply columns_setitem_in.
  apply getitem_Ok in Hs as (i & Hi & _). apply col_index_is_Some. by eexists.
Qed.

(** After the cleaning every row carries its date and its player. *)
Lemma clean_rankings_keys min_date out out' :
  columns out = RANKING_COLS →
  clean_rankings min_date out = Ok out' →
  columns out' = RANKING_COLS
  ∧ Forall (λ r, is_Some (cell_at r 0) ∧ is_Some (cell_at r 2)) (data out').
Proof.
  intros Hc H. unfold clean_rankings in H.
  apply bind_Ok in H as (o1 & H1 & H). apply bind_Ok in H as (o2 & H2 & H).
  apply bind_Ok in H as (o3 & H3 & H). apply bind_Ok in H as (o4 & H4 & H).
  apply since_columns in H1. apply coerce_col_columns in H2, H3, H4.
  rewrite dropna_rankings in H by congruence. apply Ok_inj in H. rewrite <- H.
  split; [done|]. cbn [data]. apply Forall_forall. intros r Hr.
  apply list_elem_of_In, filter_In in Hr as [_ Hr].
  apply andb_true_iff in Hr as [Ha Hb].
  split; by eapply bool_decide_eq_true_1.
Qed.

(** Every row that the rankings loader hands to the bulk copy carries
    its date and its player. *)
Lemma load_rankings_copied files min_date w r :
  r ∈ copied (sent_by w (load_rankings files min_date w).2) →
  is_Some (cell_at r 0) ∧ is_Some (cell_at r 2).
Proof.
  unfold load_rankings.
  destruct (read_all_rankings_issued files w) as [Hi _].
  destruct (read_all_rankings files w) as [[frames|e] w0]; cbn [snd] in Hi.
  2: { cbn [snd]. rewrite sent_by_same by done. by intros ?%elem_of_nil. }
  destruct frames as [|fr frames].
  { cbn [snd]. rewrite sent_by_same by done. by intros ?%elem_of_nil. }
  destruct (clean_rankings min_date _) as [out|e] eqn:Hclean.
  2: { cbn [snd]. rewrite sent_by_same by done. by intros ?%elem_of_nil. }
  apply clean_rankings_keys in Hclean as [Hc Hk]; [|done].
  rewrite (dedupe_rankings_eq out Hc).
  set (w1 := print _ w0).
  rewrite <- (sent_by_from w1 w) by (by rewrite <- Hi).
  intros Hr%copy_df_copied. rewrite reindex_rankings in Hr by done. cbn [data] in Hr.
  apply list_elem_of_In, in_map_iff in Hr as (r0 & <- & Hr0).
  apply list_elem_of_In in Hr0.
  eapply elem_of_sublist in Hr0; [|apply keep_last_sublist].
  rewrite stable_sort_Permutation in Hr0.
  eapply Forall_forall in Hk; [|done]. exact Hk.
Qed.
End rankings.




(** ** Players files with and without header *)

Lemma has_header_spec peek :
  has_header peek = true ↔ ∃ c, c ∈ PLAYER_SENTINELS ∧ c ∈ peek.
Proof.
  unfold has_header. rewrite existsb_exists. split.
  - intros (c & Hc & Hin). exists c. split; [by apply list_elem_of_In|].
    by apply bool_decide_eq_true_1 in Hin.
  - intros (c & Hc & Hin). exists c. split; [by apply list_elem_of_In|].
    by apply bool_decide_eq_true_2.
Qed.

Lemma choices_complete header fields :
  Forall2 (λ h names, h ∈ names) header fields → header ∈ choices fields.
Proof.
  induction 1 as [|h names header fields Hin _ IH]; cbn [choices].
  - by left.
  - apply list_elem_of_In, in_flat_map. exists h. split; [by apply list_elem_of_In|].
    apply in_map. by apply list_elem_of_In.
Qed.

(** Every header made of accepted names is positional, and its names
    are already stripped and in lower case. *)
Lemma choices_positional :
  Forall (λ header, positional header = true
                    ∧ map (λ c, lower (strip c)) header = header)
    (choices PLAYER_FIELDS).
Proof. eapply bool_decide_unpack. vm_compute. exact I. Qed.

Lemma getitem_at header d c i :
  col_index header c = Some i →
  getitem (mkDF header d) c = Ok (map (λ r, cell_at r i) d).
Proof. unfold getitem. cbn [columns data]. by intros ->. Qed.

Lemma pick_at header d names i :
  pick (mkDF header []) names ≫= col_index header = Some i →
  ∃ c, pick (mkDF header d) names = Some c ∧ col_index header c = Some i.
Proof.
  change (pick (mkDF header []) names) with (pick (mkDF header d) names).
  destruct (pick (mkDF header d) names) as [c|]; [|done]. intros H. by exists c.
Qed.

Section players_header.
Context {pd : Pandas}.

(** The output frame depends on the source frame through its length and
    the seven series picked from it. *)
Lemma build_players_ext df df' p p' :
  len df = len df' →
  getitem_picked df (col_player_id p) = getitem_picked df' (col_player_id p') →
  getitem_picked df (col_last p) = getitem_picked df' (col_last p') →
  getitem_picked df (col_first p) = getitem_picked df' (col_first p') →
  match col_hand p with
  | Some c => getitem df c
  | None => Ok (replicate (len df) None)
  end
  = match col_hand p' with
    | Some c => getitem df' c
    | None => Ok (replicate (len df') None)
    end →
  getitem_picked df (col_birth p) = getitem_picked df' (col_birth p') →
  getitem_picked df (col_country p) = getitem_picked df' (col_country p') →
  match col_height p with
  | Some c => s ← getitem df c; to_Int64 s
  | None => Ok (replicate (len df) None)
  end
  = match col_height p' with
    | Some c => s ← getitem df' c; to_Int64 s
    | None => Ok (replicate (len df') None)
    end →
  build_players df p = build_players df' p'.
Proof.
  intros Hl H1 H2 H3 H4 H5 H6 H7. unfold build_players.
  rewrite H1, H2, H3, H4, H5, H6, H7, Hl. reflexivity.
Qed.

(** A frame under a positional header gives the output of the same rows
    under the positional names. *)
Lemma players_frame_positional header d :
  positional header = true →
  resolve_players (mkDF header d) ≫= build_players (mkDF header d)
  = resolve_players (mkDF SRC_COLS d) ≫= build_players (mkDF SRC_COLS d).
Proof.
  intros Hp. unfold positional in Hp.
  apply andb_true_iff in Hp as [_ Hpos]. apply bool_decide_eq_true_1 in Hpos.
  unfold PLAYER_FIELDS, REQUIRED_PLAYER_FIELDS in Hpos. cbn [app map seq] in Hpos.
  injection Hpos as H0 H1 H2 H3 H4 H5 H6.
  apply (pick_at _ d) in H0 as (c0 & P0 & I0). apply (pick_at _ d) in H1 as (c1 & P1 & I1).
  apply (pick_at _ d) in H2 as (c2 & P2 & I2). apply (pick_at _ d) in H3 as (c3 & P3 & I3).
  apply (pick_at _ d) in H4 as (c4 & P4 & I4). apply (pick_at _ d) in H5 as (c5 & P5 & I5).
  apply (pick_at _ d) in H6 as (c6 & P6 & I6).
  assert (resolve_players (mkDF header d) = Ok (pick_columns (mkDF header d))) as ->.
  { unfold resolve_players. rewrite bool_decide_eq_true_2; [done|].
    apply truly_missing_nil. unfold pick_columns.
    cbn [col_player_id col_first col_last col_hand col_birth col_country].
    rewrite P0, P1, P2, P3, P4, P5. by repeat split. }
  replace (resolve_players (mkDF SRC_COLS d))
    with (Ok (pick_columns (mkDF SRC_COLS d))) by reflexivity.
  rewrite !bind_Ok_l.
  apply build_players_ext; [reflexivity|..]; unfold pick_columns;
    cbn [col_player_id col_first col_last col_hand col_birth col_country col_height];
    rewrite ?P0, ?P1, ?P2, ?P3, ?P4, ?P5, ?P6; unfold getitem_picked;
    rewrite ?(getitem_at _ _ _ _ I0), ?(getitem_at _ _ _ _ I1), ?(getitem_at _ _ _ _ I2),
      ?(getitem_at _ _ _ _ I3), ?(getitem_at _ _ _ _ I4), ?(getitem_at _ _ _ _ I5),
      ?(getitem_at _ _ _ _ I6);
    reflexivity.
Qed.

Lemma players_frame_cons first rest :
  players_frame (first :: rest)
  = df ← (if has_header first then read_csv (first :: rest)
          else read_csv_names SRC_COLS (first :: rest));
    resolve_players (rename (λ c, lower (strip c)) df)
      ≫= build_players (rename (λ c, lower (strip c)) df).
Proof.
  unfold players_frame, read_players. cbn [peek_columns]. rewrite bind_Ok_l.
  by destruct (if has_header first then _ else _).
Qed.

(** Under a header that names the seven positional columns by accepted
    names, the frame built is the one built under the positional
    names. *)
Lemma players_frame_header header first rest :
  Forall2 (λ h names, h ∈ names) header PLAYER_FIELDS →
  has_header first = false →
  players_frame (first :: rest) = players_frame (header :: first :: rest).
Proof.
  intros Hh%choices_complete Hf. rewrite !players_frame_cons, Hf.
  pose proof choices_positional as Hall.
  eapply Forall_forall in Hall as [Hp Hnorm]; [|done].
  pose proof Hp as Hp'. unfold positional in Hp'.
  apply andb_true_iff in Hp' as [Hp' _]. apply andb_true_iff in Hp' as [-> Hl].
  apply bool_decide_eq_true_1 in Hl.
  unfold read_csv, read_csv_names. rewrite Hl.
  change (length SRC_COLS) with 7.
  destruct (read_rows 7 (first :: rest)) as [d|e]; [|done].
  rewrite !bind_Ok_l. unfold rename. cbn [columns data]. rewrite Hnorm.
  replace (map (λ c, lower (strip c)) SRC_COLS) with SRC_COLS by (by vm_compute).
  symmetry. by apply players_frame_positional.
Qed.
End players_header.

(** C6. The first line of a players file is taken for a header exactly
    when one of the sentinel names is among its fields.  A file without
    header, read under the seven positional names (id, first, last, hand,
    birth, country, height), gives the same output frame as the file
    that carries, above the same lines, a header naming the seven
    positions by accepted names (name_first for first_name, name_last for
    last_name, dob, ioc, height_cm, ...). *)
Theorem headerless_players_file_reads_as_headered {pd : Pandas} :
  (∀ peek, has_header peek = true ↔ ∃ c, c ∈ PLAYER_SENTINELS ∧ c ∈ peek)
  ∧ (∀ header first rest,
       Forall2 (λ h names, h ∈ names) header PLAYER_FIELDS →
       has_header first = false →
       players_frame (first :: rest) = players_frame (header :: first :: rest)).
Proof. split; [apply has_header_spec | apply @players_frame_header]. Qed.

Lemma headerless_players_file_reads_as_headered_witness :
  players_frame (pd := reference_parsers) players_file_legacy
  = players_frame (pd := reference_parsers) (players_header_synonyms :: players_file_legacy).
Proof.
  apply (proj2 (headerless_players_file_reads_as_headered (pd := reference_parsers))
           players_header_synonyms
           ["104745"; "Rafael"; "Nadal"; "L"; "19860603"; "ESP"; "185"] []).
  - eapply bool_decide_unpack. vm_compute. exact I.
  - reflexivity.
Defined.

(** The record recovered from the positional file of the scenario. *)
Example players_scenario :
  players_frame (pd := reference_parsers) players_file_legacy
  = Ok (mkDF ["player_id"; "name_last"; "name_first"; "hand"; "dob"; "ioc"; "height_cm"]
          [ [Some (VInt 104745); Some (VStr "Nadal"); Some (VStr "Rafael");
             Some (VStr "L"); Some (VDate 5997); Some (VStr "ESP"); Some (VInt 185)] ]).
Proof. by vm_compute. Qed.
